(** * ABX mock-exchange client: wire codec, stream collector, gap recovery

    A shallow embedding of [abx_client.cpp].  Raw data is a
    [std::vector<char>], modelled as a list of bytes; the 32-bit integers of
    the program are integers in [Z] with their conversions written out; the
    [std::set<uint32_t>] of received sequence numbers is a finite set, and
    its in-order traversal is the sorted list of its elements.  The network
    is the environment: each connection is described by what its operations
    will answer, and the client records the operations it performs.  The
    log lines are left out; an exception that leaves [fetchAndSaveData] is
    the one [main] catches.  [std::sort] belongs to the standard library and
    is a parameter, constrained by what the language requires of it.  The
    [dump] of the JSON library is a parameter too: the model takes from it
    whether it returns or throws, the text it returns being left out.
    Saving is the opening of the output file followed, when [dump] returns,
    by the event that carries the sorted array. *)

From Stdlib Require Import ZArith Lia Strings.Byte Sorting.Sorted.
From stdpp Require Import base option list sorting strings gmap.

Local Open Scope Z_scope.

(** ** Integer conversions of the C++ code *)

Module Cxx.

(** [static_cast<unsigned char>(c)]: the value of the byte, in [0, 256). *)
Definition uchar (c : byte) : Z := Z.of_N (Byte.to_N c).

(** Conversion of an integer to [int] (32 bits, two's complement). *)
Definition to_int (z : Z) : Z := (z + 2 ^ 31) mod 2 ^ 32 - 2 ^ 31.

(** Conversion of an integer to [uint32_t]. *)
Definition to_uint32 (z : Z) : Z := z mod 2 ^ 32.

(** Conversion of an integer to [uint8_t]. *)
Definition to_uint8 (z : Z) : Z := z mod 2 ^ 8.

(** [x << n] on [int] operands: the promoted left operand is shifted and
    the result is brought back into [int] (for a byte of 128 or more shifted
    by 24 this is the negative number with the same 32 bits). *)
Definition shl_int (x : Z) (n : Z) : Z := to_int (Z.shiftl x n).

(** [static_cast<char>(v)] for an 8-bit value [v]: the byte with that
    bit pattern. *)
Definition to_char (v : Z) : byte :=
  default "000"%byte (Byte.of_N (Z.to_N (v mod 2 ^ 8))).

End Cxx.

(** ** Packets *)

(** [struct Packet].  [side] is an [enum class Side : char]: a value of the
    enumeration is any [char], the two enumerators being ['B'] and ['S']. *)
Record Packet := mkPacket {
  symbol : list byte;
  side : byte;
  quantity : Z;
  price : Z;
  sequence : Z
}.

Definition Buy : byte := "B"%byte.
Definition Sell : byte := "S"%byte.

(** The size of the receive buffer, [std::vector<char> buffer(17)]. *)
Definition PACKET_SIZE : nat := 17.

(** [readInt32]: four reads [data[offset + k]], each converted to
    [unsigned char], promoted to [int], shifted and or-ed; the [int] result
    is converted to the [uint32_t] return type.  A read past the end of the
    vector has no defined result: [None]. *)
Definition readInt32 (data : list byte) (offset : nat) : option Z :=
  b0 ← data !! offset;
  b1 ← data !! (offset + 1)%nat;
  b2 ← data !! (offset + 2)%nat;
  b3 ← data !! (offset + 3)%nat;
  Some (Cxx.to_uint32
          (Z.lor (Z.lor (Z.lor (Cxx.shl_int (Cxx.uchar b0) 24)
                               (Cxx.shl_int (Cxx.uchar b1) 16))
                        (Cxx.shl_int (Cxx.uchar b2) 8))
                 (Cxx.uchar b3))).

(** [std::copy_n(data.begin(), n, out)]: the first [n] elements, which must
    exist. *)
Definition copy_n (data : list byte) (n : nat) : option (list byte) :=
  if decide (n ≤ length data)%nat then Some (take n data) else None.

(** [parsePacket]: no check of the length or of the side byte is made; the
    only way not to obtain a packet is a read past the end of [data]. *)
Definition parsePacket (data : list byte) : option Packet :=
  sym ← copy_n data 4;
  sd ← data !! 4%nat;
  q ← readInt32 data 5;
  p ← readInt32 data 9;
  s ← readInt32 data 13;
  Some {| symbol := sym; side := sd; quantity := q; price := p; sequence := s |}.

(** ** The frame layout of the protocol, for comparison with the decoder *)

(** The four bytes of a 32-bit value, most significant first. *)
Definition be32_bytes (v : Z) : list byte :=
  [Cxx.to_char (Z.shiftr v 24); Cxx.to_char (Z.shiftr v 16);
   Cxx.to_char (Z.shiftr v 8); Cxx.to_char v].

(** The value of four bytes read most significant first. *)
Definition be32_value (b0 b1 b2 b3 : byte) : Z :=
  Cxx.uchar b0 * 2 ^ 24 + Cxx.uchar b1 * 2 ^ 16 + Cxx.uchar b2 * 2 ^ 8 + Cxx.uchar b3.

(** The big-endian unsigned 32-bit integer held by bytes
    [offset, offset + 4) of [data]. *)
Definition be32_at (data : list byte) (offset : nat) : option Z :=
  match take 4 (drop offset data) with
  | [b0; b1; b2; b3] => Some (be32_value b0 b1 b2 b3)
  | _ => None
  end.

(** Response frame: [symbol:4][side:1][quantity:4][price:4][sequence:4]. *)
Definition frame_of_packet (p : Packet) : list byte :=
  symbol p ++ [side p] ++ be32_bytes (quantity p) ++ be32_bytes (price p)
    ++ be32_bytes (sequence p).

(** ** The network, as the client observes it *)

(** What one [socket.read_some] call reports. *)
Inductive recv_result :=
| RecvEof                        (* error == boost::asio::error::eof *)
| RecvError                      (* any other error code *)
| RecvData (bytes : list byte).  (* no error: the bytes transferred *)

(** One connection to the server: whether [boost::asio::connect] and
    [boost::asio::write] succeed on it, and what its successive [read_some]
    calls report.  Once [reads] is used up the peer has closed the
    connection, and a further call reports end of file. *)
Record connection := mkConnection {
  accepts : bool;
  writable : bool;
  reads : list recv_result
}.

(** The server: the connection of the streaming request, and the connection
    opened while the missing sequence number [seq] is requested again. *)
Record server := mkServer {
  primary : connection;
  retry : Z → connection
}.

(** What the client does, in order. *)
Inductive event :=
| EvConnect
| EvSend (request : list byte)
| EvRecv (r : recv_result)
| EvOpenFile
| EvSave (output : list Packet).

(** How a call ends: it returns, an exception leaves it, or it has made a
    read whose result the language does not define.  [OutOfFuel] is the
    model's own: a loop was cut before its condition ended it. *)
Inductive result (A : Type) :=
| Ok (a : A)
| Throw
| Undefined
| OutOfFuel.
Arguments Ok {A} a.
Arguments Throw {A}.
Arguments Undefined {A}.
Arguments OutOfFuel {A}.

(** A computation: the events it performs and how it ends. *)
Definition IO (A : Type) : Type := list event * result A.

Definition io_ret {A} (a : A) : IO A := ([], Ok a).

Definition io_bind {A B} (m : IO A) (f : A → IO B) : IO B :=
  match m with
  | (t, Ok a) => let '(t', r) := f a in (t ++ t', r)
  | (t, Throw) => (t, Throw)
  | (t, Undefined) => (t, Undefined)
  | (t, OutOfFuel) => (t, OutOfFuel)
  end.

Notation "x <-- m ;; k" := (io_bind m (λ x, k))
  (at level 100, m at next level, right associativity).
Notation "m ;;; k" := (io_bind m (λ _, k))
  (at level 100, right associativity).

(** A value read from memory: defined, or not. *)
Definition defined {A} (o : option A) : IO A :=
  match o with Some a => io_ret a | None => ([], Undefined) end.

Definition trace {A} (m : IO A) : list event := m.1.
Definition outcome {A} (m : IO A) : result A := m.2.

(** [boost::asio::connect(socket, ...)]: throws when it fails. *)
Definition connect (sock : connection) : IO unit :=
  ([EvConnect], if accepts sock then Ok () else Throw).

(** [sendRequest]: both parameters are [uint8_t]; the request is the two
    chars [{callType, sequence}]; [boost::asio::write] throws when it
    fails. *)
Definition sendRequest (sock : connection) (callType sequence : Z) : IO unit :=
  let request := [Cxx.to_char callType; Cxx.to_char sequence] in
  ([EvSend request], if writable sock then Ok () else Throw).

(** [receiveResponse], on what [read_some] reports: an empty vector at end
    of file, an exception on another error, otherwise the 17-byte buffer
    resized to the length read. *)
Definition receiveResponse (r : recv_result) : IO (list byte) :=
  ([EvRecv r],
   match r with
   | RecvEof => Ok []
   | RecvError => Throw
   | RecvData bytes => Ok (take PACKET_SIZE bytes)
   end).

(** ** [fetchAndSaveData] *)

(** The two containers the function fills. *)
Record locals := mkLocals {
  packets : list Packet;
  receivedSequences : gset Z
}.

(** Which [return] the function reached: the early one after logging
    "No packets received.", or the one after writing the output. *)
Inductive status := NoPacketsReceived | DataSaved.

(** The [while (true)] loop of the streaming phase; [pending] is what the
    reads of the socket will report.  With nothing pending the peer has
    closed: the read reports end of file and the loop is left. *)
Fixpoint stream_loop (pending : list recv_result) (st : locals) : IO locals :=
  match pending with
  | [] => receiveResponse RecvEof;;; io_ret st
  | r :: rest =>
      data <-- receiveResponse r;;
      match data with
      | [] => io_ret st
      | _ :: _ =>
          packet <-- defined (parsePacket data);;
          stream_loop rest
            {| packets := packets st ++ [packet];
               receivedSequences := {[sequence packet]} ∪ receivedSequences st |}
      end
  end.

(** [for (uint32_t i = 1; i < lastSeq; ++i)]: from the current [i], with
    the increment wrapping at 32 bits. *)
Fixpoint missing_loop (fuel : nat) (i lastSeq : Z) (received missing : gset Z)
  : option (gset Z) :=
  match fuel with
  | O => None
  | S fuel' =>
      if decide (i < lastSeq)
      then missing_loop fuel' (Cxx.to_uint32 (i + 1)) lastSeq received
             (if decide (i ∈ received) then missing else {[i]} ∪ missing)
      else Some missing
  end.

Definition detect_missing (lastSeq : Z) (received : gset Z) : IO (gset Z) :=
  match missing_loop (S (Z.to_nat lastSeq)) 1 lastSeq received ∅ with
  | Some missing => io_ret missing
  | None => ([], OutOfFuel)
  end.

(** Traversal of a [std::set<uint32_t>]: its elements in increasing order. *)
Definition in_order (s : gset Z) : list Z := merge_sort Z.le (elements s).

(** One turn of the recovery loop: a fresh socket, one request of call type
    2, one read. *)
Definition recover_one (srv : server) (seq : Z) (st : locals) : IO locals :=
  let retry_socket := retry srv seq in
  connect retry_socket;;;
  sendRequest retry_socket 2 (Cxx.to_uint8 seq);;;
  data <-- receiveResponse (hd RecvEof (reads retry_socket));;
  match data with
  | [] => io_ret st
  | _ :: _ =>
      packet <-- defined (parsePacket data);;
      io_ret {| packets := packets st ++ [packet];
                receivedSequences := receivedSequences st |}
  end.

(** [for (uint32_t seq : missingSequences)]. *)
Fixpoint recover_loop (srv : server) (seqs : list Z) (st : locals) : IO locals :=
  match seqs with
  | [] => io_ret st
  | seq :: seqs' => st' <-- recover_one srv seq st;; recover_loop srv seqs' st'
  end.

(** The first phase: connect, request the stream, collect until the server
    closes. *)
Definition stream_phase (srv : server) : IO locals :=
  connect (primary srv);;;
  sendRequest (primary srv) 1 0;;;
  stream_loop (reads (primary srv)) {| packets := []; receivedSequences := ∅ |}.

(** The second phase, entered with at least one packet, [back] being
    [packets.back()]. *)
Definition recovery_phase (srv : server) (back : Packet) (st : locals) : IO locals :=
  missingSequences <-- detect_missing (sequence back) (receivedSequences st);;
  recover_loop srv (in_order missingSequences) st.

(** What [std::sort] with the comparator [a.sequence < b.sequence] is
    required to do: rearrange the range so that no element is less than one
    before it.  Nothing is required of the order of equal elements. *)
Definition sort_contract (std_sort : list Packet → list Packet) : Prop :=
  ∀ l, std_sort l ≡ₚ l ∧
       StronglySorted (λ a b, ¬ sequence b < sequence a) (std_sort l).

(** ** The JSON output *)

(** The JSON values the program builds: unsigned numbers, strings, arrays,
    and objects, which keep one value per key. *)
#[local] Unset Elimination Schemes.
Inductive json :=
| JUnsigned (n : Z)
| JString (s : list byte)
| JArray (elements : list json)
| JObject (members : gmap string json).
#[local] Set Elimination Schemes.

(** [Packet::toJSON]: the symbol as a string of its four chars, the side as
    a string of one char, the three integers as numbers. *)
Definition toJSON (p : Packet) : json :=
  JObject (list_to_map
             [("symbol"%string, JString (symbol p));
              ("side"%string, JString [side p]);
              ("quantity"%string, JUnsigned (quantity p));
              ("price"%string, JUnsigned (price p));
              ("sequence"%string, JUnsigned (sequence p))]).

(** The array built from the sorted packets, one [push_back] each. *)
Definition output_json (sorted : list Packet) : json :=
  JArray (foldl (λ output packet, output ++ [toJSON packet]) [] sorted).

(** ** Sorting and saving *)

Section fetch.

Variable std_sort : list Packet → list Packet.

(** [output.dump(4)] is the JSON library's: it returns the text of the
    document or throws, as it does for a string that is not valid UTF-8.
    [dump] tells whether it returns. *)
Variable dump : json → bool.

(** Sorting, building the array, opening [output.json], and inserting the
    text that [dump] returns.  When [dump] throws the file has been opened
    and nothing is inserted. *)
Definition save (st : locals) : IO status :=
  let sorted := std_sort (packets st) in
  let output := output_json sorted in
  ([EvOpenFile], Ok ());;;
  if dump output then ([EvSave sorted], Ok DataSaved) else ([], Throw).

Definition fetchAndSaveData (srv : server) : IO status :=
  st <-- stream_phase srv;;
  match last (packets st) with
  | None => io_ret NoPacketsReceived
  | Some back => st' <-- recovery_phase srv back st;; save st'
  end.

End fetch.

(** A sort that meets the contract, to run the model. *)
Definition by_sequence (a b : Packet) : Prop := sequence a ≤ sequence b.
Global Instance by_sequence_dec a b : Decision (by_sequence a b) := Z_le_dec _ _.
Definition stable_sort (l : list Packet) : list Packet := merge_sort by_sequence l.

(** Another one, which starts from the reversed list. *)
Definition reversing_sort (l : list Packet) : list Packet :=
  merge_sort by_sequence (reverse l).

(** A [dump] to run the model: it returns on the arrays whose symbol and
    side strings hold bytes below 128 only, and throws on the others. *)
Definition ascii_string (j : json) : bool :=
  match j with
  | JString s => forallb (λ c, bool_decide (Cxx.uchar c < 128)) s
  | _ => true
  end.

Definition ascii_member (key : string) (j : json) : bool :=
  match j with
  | JObject members => from_option ascii_string true (members !! key)
  | _ => true
  end.

Definition ascii_dump (j : json) : bool :=
  match j with
  | JArray elements =>
      forallb (λ e, ascii_member "symbol" e && ascii_member "side" e) elements
  | _ => ascii_string j
  end.

(** ** [main] *)

(** [try { ... } catch (const std::exception&) { ... }]: an exception ends
    the block and the handler runs. *)
Definition try_catch {A} (body handler : IO A) : IO A :=
  match body with
  | (t, Throw) => let '(t', r) := handler in (t ++ t', r)
  | _ => body
  end.

(** [main]: the handler only logs, and the exit status is 0 either way. *)
Definition main (std_sort : list Packet → list Packet) (dump : json → bool)
    (srv : server) : IO Z :=
  try_catch (fetchAndSaveData std_sort dump srv;;; io_ret ()) (io_ret ());;;
  io_ret 0.

(** ** Auxiliary notions and sample servers *)

(** The decoder as a validating one: no packet exactly for a short input
    or a side byte other than ['B'] and ['S']. *)
Definition decoder_validates : Prop :=
  ∀ data : list byte,
    parsePacket data = None ↔
    (length data < PACKET_SIZE)%nat ∨
    (data !! 4%nat ≠ Some Buy ∧ data !! 4%nat ≠ Some Sell).

(** The frames the client went on to decode in a run: the non-empty
    vectors [receiveResponse] returned, in order of arrival. *)
Definition frame_of_event (e : event) : option (list byte) :=
  match e with
  | EvRecv (RecvData bytes) =>
      match take PACKET_SIZE bytes with
      | [] => None
      | data => Some data
      end
  | _ => None
  end.

Definition frames_of (t : list event) : list (list byte) := omap frame_of_event t.

(** What the one read of a recovery connection hands to the caller when it
    does not throw, and the packet decoded from it, if any. *)
Definition reply (c : connection) : list byte :=
  match hd RecvEof (reads c) with
  | RecvData bytes => take PACKET_SIZE bytes
  | _ => []
  end.

Definition reply_packet (c : connection) : option Packet :=
  match reply c with
  | [] => None
  | data => parsePacket data
  end.

(** The three operations of one recovery attempt for [seq]. *)
Definition attempt_events (c : connection) (seq : Z) : list event :=
  [EvConnect;
   EvSend [Cxx.to_char 2; Cxx.to_char (seq mod 256)];
   EvRecv (hd RecvEof (reads c))].

(** A recovery connection on which nothing goes wrong: it is accepted, the
    request is written, and the read reports end of file, no byte, or at
    least a full frame. *)
Definition cooperative (c : connection) : bool :=
  accepts c && writable c &&
  match hd RecvEof (reads c) with
  | RecvEof => true
  | RecvError => false
  | RecvData bytes =>
      bool_decide (take PACKET_SIZE bytes = []) || bool_decide (PACKET_SIZE ≤ length bytes)%nat
  end.

(** A recovery connection on which an operation raises an error. *)
Definition raises (c : connection) : bool :=
  negb (accepts c) || negb (writable c) ||
  match hd RecvEof (reads c) with RecvError => true | _ => false end.

(** A recovery connection that delivers the packet asked for: nothing goes
    wrong on it and the frame it returns carries sequence number [seq]. *)
Definition recovers (srv : server) (seq : Z) : bool :=
  cooperative (retry srv seq) &&
  match reply_packet (retry srv seq) with
  | Some p => bool_decide (sequence p = seq)
  | None => false
  end.

(** The requests written in a run, as byte values. *)
Definition requests_of (t : list event) : list (list Z) :=
  omap (λ e, match e with
             | EvSend request => Some (Cxx.uchar <$> request)
             | _ => None
             end) t.

(** The locals a phase ended with, when it returned. *)
Definition locals_of (m : IO locals) : locals :=
  match outcome m with
  | Ok st => st
  | _ => {| packets := []; receivedSequences := ∅ |}
  end.

(** A response frame for symbol "ABCD". *)
Definition frame (sd : byte) (q p s : Z) : list byte :=
  frame_of_packet (mkPacket ["A"; "B"; "C"; "D"]%byte sd q p s).

(** A streaming connection that delivers one frame per sequence number of
    [seqs], in that order, and is then closed. *)
Definition streams (seqs : list Z) : connection :=
  {| accepts := true; writable := true;
     reads := (λ s, RecvData (frame Buy 10 20 s)) <$> seqs |}.

(** Recovery connections: one that answers with the frame asked for, one
    that is closed without an answer, one whose read fails. *)
Definition answers (seq : Z) : connection :=
  {| accepts := true; writable := true; reads := [RecvData (frame Sell 30 40 seq)] |}.
Definition broken : connection :=
  {| accepts := true; writable := true; reads := [RecvError] |}.

(** Sequences 1, 2, 4, 5 streamed, every gap answered. *)
Definition srv_gap : server := {| primary := streams [1; 2; 4; 5]; retry := answers |}.

(** Sequences 1 and 4 streamed; the request for 2 fails, the one for 3
    would be answered. *)
Definition srv_retry_error : server :=
  {| primary := streams [1; 4];
     retry := λ seq, if decide (seq = 2) then broken else answers seq |}.

(** The stream is closed before any frame. *)
Definition srv_closed : server := {| primary := streams []; retry := answers |}.


(** Sequences 1, 5, 3 streamed in that order. *)
Definition srv_reordered : server := {| primary := streams [1; 5; 3]; retry := answers |}.

(** Two whole frames, then a read of five bytes. *)
Definition srv_short_read : server :=
  {| primary := {| accepts := true; writable := true;
                   reads := [RecvData (frame Buy 10 20 1); RecvData (frame Buy 10 20 2);
                             RecvData (take 5 (frame Buy 10 20 3))] |};
     retry := answers |}.

(** Two whole frames, then a read that fails. *)
Definition srv_stream_error : server :=
  {| primary := {| accepts := true; writable := true;
                   reads := [RecvData (frame Buy 10 20 1); RecvData (frame Buy 10 20 2);
                             RecvError] |};
     retry := answers |}.

(** Sequences 1 and 3 streamed; the answer for 2 is cut after five bytes. *)
Definition srv_short_reply : server :=
  {| primary := streams [1; 3];
     retry := λ seq, {| accepts := true; writable := true;
                        reads := [RecvData (take 5 (frame Sell 30 40 seq))] |} |}.


(** A server that answers a recovery request by the byte it carries. *)
Definition srv_low_byte : server :=
  {| primary := streams [1; 300]; retry := λ seq, answers (seq mod 256) |}.

(** One frame whose symbol is four bytes 255, which no UTF-8 text holds. *)
Definition srv_raw_symbol : server :=
  {| primary :=
       {| accepts := true; writable := true;
          reads := [RecvData (frame_of_packet
                                (mkPacket ["255"; "255"; "255"; "255"]%byte Buy 10 20 1))] |};
     retry := answers |}.

(** A stream whose sequence numbers are distinct and within range. *)
Definition clean_stream (st : locals) (back : Packet) : Prop :=
  NoDup (sequence <$> packets st)
  ∧ Forall (λ p, 1 ≤ sequence p ≤ sequence back) (packets st).

(** * Properties *)

(** ** The decoder *)

Section codec.

Lemma uchar_range c : 0 ≤ Cxx.uchar c < 256.
Proof. destruct c; vm_compute; split; congruence. Qed.

Lemma to_char_uchar c : Cxx.to_char (Cxx.uchar c) = c.
Proof. destruct c; reflexivity. Qed.

Lemma uchar_to_char v : Cxx.uchar (Cxx.to_char v) = v mod 2 ^ 8.
Proof.
  unfold Cxx.uchar, Cxx.to_char.
  pose proof (Z.mod_pos_bound v (2 ^ 8) eq_refl) as Hbound.
  destruct (Byte.of_N (Z.to_N (v mod 2 ^ 8))) as [c |] eqn:Hc;
    cbn [from_option id].
  - apply Byte.to_of_N in Hc. rewrite Hc. lia.
  - apply Byte.of_N_None_iff in Hc. lia.
Qed.

Lemma to_char_mod v : Cxx.to_char (v mod 2 ^ 8) = Cxx.to_char v.
Proof. unfold Cxx.to_char. by rewrite Z.mod_mod. Qed.

Lemma to_int_mod z : Cxx.to_int z mod 2 ^ 32 = z mod 2 ^ 32.
Proof.
  unfold Cxx.to_int. rewrite (Z.mod_eq (z + 2 ^ 31) (2 ^ 32)) by lia.
  replace (z + 2 ^ 31 - 2 ^ 32 * ((z + 2 ^ 31) `div` 2 ^ 32) - 2 ^ 31)
    with (z + - ((z + 2 ^ 31) `div` 2 ^ 32) * 2 ^ 32) by lia.
  apply Z_mod_plus_full.
Qed.

Lemma lor_mod a b n : 0 ≤ n → Z.lor a b mod 2 ^ n = Z.lor (a mod 2 ^ n) (b mod 2 ^ n).
Proof.
  intros Hn. rewrite <- !Z.land_ones by done. apply Z.land_lor_distr_l.
Qed.

Lemma lor_high_low hi lo n :
  0 ≤ n → 0 ≤ lo < 2 ^ n → Z.lor (hi * 2 ^ n) lo = hi * 2 ^ n + lo.
Proof.
  intros Hn Hlo.
  assert (Hdisj : Z.land (hi * 2 ^ n) lo = 0).
  { apply Z.bits_inj'. intros i Hi.
    rewrite Z.land_spec, Z.bits_0.
    destruct (decide (i < n)) as [Hlt | Hge].
    - by rewrite Z.mul_pow2_bits_low.
    - rewrite <- (Z.mod_small lo (2 ^ n)) by done.
      rewrite Z.mod_pow2_bits_high by lia. apply andb_false_r. }
  by rewrite Z.add_nocarry_lxor, Z.lxor_lor.
Qed.

(** The shifts and ors of [readInt32] compute the big-endian value. *)
Lemma or_shift_value b0 b1 b2 b3 :
  Cxx.to_uint32
    (Z.lor (Z.lor (Z.lor (Cxx.shl_int (Cxx.uchar b0) 24)
                         (Cxx.shl_int (Cxx.uchar b1) 16))
                  (Cxx.shl_int (Cxx.uchar b2) 8))
           (Cxx.uchar b3))
  = be32_value b0 b1 b2 b3.
Proof.
  pose proof (uchar_range b0). pose proof (uchar_range b1).
  pose proof (uchar_range b2). pose proof (uchar_range b3).
  unfold Cxx.to_uint32, Cxx.shl_int, be32_value.
  rewrite !lor_mod, !to_int_mod, !Z.shiftl_mul_pow2 by lia.
  rewrite !Z.mod_small by lia.
  rewrite (lor_high_low (Cxx.uchar b0) (Cxx.uchar b1 * 2 ^ 16) 24) by lia.
  replace (Cxx.uchar b0 * 2 ^ 24 + Cxx.uchar b1 * 2 ^ 16)
    with ((Cxx.uchar b0 * 2 ^ 8 + Cxx.uchar b1) * 2 ^ 16) by lia.
  rewrite (lor_high_low _ (Cxx.uchar b2 * 2 ^ 8) 16) by lia.
  replace ((Cxx.uchar b0 * 2 ^ 8 + Cxx.uchar b1) * 2 ^ 16 + Cxx.uchar b2 * 2 ^ 8)
    with ((Cxx.uchar b0 * 2 ^ 16 + Cxx.uchar b1 * 2 ^ 8 + Cxx.uchar b2) * 2 ^ 8) by lia.
  rewrite lor_high_low by lia. lia.
Qed.

Lemma be32_value_range b0 b1 b2 b3 : 0 ≤ be32_value b0 b1 b2 b3 < 2 ^ 32.
Proof.
  pose proof (uchar_range b0). pose proof (uchar_range b1).
  pose proof (uchar_range b2). pose proof (uchar_range b3).
  unfold be32_value. lia.
Qed.

Lemma to_char_low hi c : Cxx.to_char (hi * 2 ^ 8 + Cxx.uchar c) = c.
Proof.
  pose proof (uchar_range c).
  rewrite <- to_char_mod, Z.add_comm, Z_mod_plus_full, Z.mod_small by lia.
  apply to_char_uchar.
Qed.

Lemma be32_bytes_value b0 b1 b2 b3 :
  be32_bytes (be32_value b0 b1 b2 b3) = [b0; b1; b2; b3].
Proof.
  pose proof (uchar_range b0). pose proof (uchar_range b1).
  pose proof (uchar_range b2). pose proof (uchar_range b3).
  unfold be32_bytes, be32_value. rewrite !Z.shiftr_div_pow2 by lia.
  set (u0 := Cxx.uchar b0) in *. set (u1 := Cxx.uchar b1) in *.
  set (u2 := Cxx.uchar b2) in *. set (u3 := Cxx.uchar b3) in *.
  rewrite <- (Z.div_unique _ (2 ^ 24) u0 (u1 * 2 ^ 16 + u2 * 2 ^ 8 + u3)) by lia.
  rewrite <- (Z.div_unique _ (2 ^ 16) (u0 * 2 ^ 8 + u1) (u2 * 2 ^ 8 + u3)) by lia.
  rewrite <- (Z.div_unique _ (2 ^ 8) ((u0 * 2 ^ 8 + u1) * 2 ^ 8 + u2) u3) by lia.
  replace (u0 * 2 ^ 24 + u1 * 2 ^ 16 + u2 * 2 ^ 8 + u3)
    with (((u0 * 2 ^ 8 + u1) * 2 ^ 8 + u2) * 2 ^ 8 + u3) by lia.
  subst u0 u1 u2 u3. rewrite !to_char_low.
  by rewrite <- (to_char_low 0 b0) at 2.
Qed.

(** The decoder on seventeen bytes, field by field. *)
Lemma parsePacket_frame s0 s1 s2 s3 sd q0 q1 q2 q3 p0 p1 p2 p3 n0 n1 n2 n3 :
  parsePacket [s0; s1; s2; s3; sd; q0; q1; q2; q3; p0; p1; p2; p3; n0; n1; n2; n3]
  = Some {| symbol := [s0; s1; s2; s3]; side := sd;
            quantity := be32_value q0 q1 q2 q3;
            price := be32_value p0 p1 p2 p3;
            sequence := be32_value n0 n1 n2 n3 |}.
Proof.
  unfold parsePacket, readInt32, copy_n. cbn [length lookup list_lookup].
  cbn -[Cxx.to_uint32 Cxx.shl_int Cxx.uchar Z.lor].
  by rewrite !or_shift_value.
Qed.

(** Only the first seventeen bytes are read. *)
Lemma parsePacket_take data :
  (PACKET_SIZE ≤ length data)%nat → parsePacket data = parsePacket (take PACKET_SIZE data).
Proof.
  intros Hlen. unfold parsePacket, readInt32, copy_n, PACKET_SIZE in *.
  rewrite length_take, take_take, !lookup_take_lt by lia.
  replace (17 `min` length data)%nat with 17%nat by lia.
  replace (4 `min` 17)%nat with 4%nat by lia.
  by repeat case_decide; try lia.
Qed.

Lemma length_17_inv (data : list byte) :
  length data = PACKET_SIZE →
  ∃ s0 s1 s2 s3 sd q0 q1 q2 q3 p0 p1 p2 p3 n0 n1 n2 n3,
    data = [s0; s1; s2; s3; sd; q0; q1; q2; q3; p0; p1; p2; p3; n0; n1; n2; n3].
Proof.
  unfold PACKET_SIZE. intros Hlen.
  do 17 (destruct data as [| ? data]; [discriminate Hlen |]).
  destruct data; [| discriminate Hlen]. by repeat eexists.
Qed.

Lemma parsePacket_long data :
  (PACKET_SIZE ≤ length data)%nat → is_Some (parsePacket data).
Proof.
  intros Hlen. rewrite parsePacket_take by done.
  destruct (length_17_inv (take PACKET_SIZE data)) as (?&?&?&?&?&?&?&?&?&?&?&?&?&?&?&?&?&->).
  { rewrite length_take. lia. }
  rewrite parsePacket_frame. by eexists.
Qed.

Lemma readInt32_Some data offset v :
  readInt32 data offset = Some v → (offset + 3 < length data)%nat.
Proof.
  unfold readInt32. intros Hread. simplify_option_eq.
  eauto using lookup_lt_Some.
Qed.

Lemma parsePacket_short data :
  (length data < PACKET_SIZE)%nat → parsePacket data = None.
Proof.
  unfold PACKET_SIZE. intros Hlen.
  destruct (parsePacket data) as [p |] eqn:Hp; [| done].
  unfold parsePacket in Hp. simplify_option_eq.
  match goal with
  | H : readInt32 data 13 = Some _ |- _ => apply readInt32_Some in H; lia
  end.
Qed.

Lemma sequence_range data p :
  parsePacket data = Some p → 0 ≤ sequence p < 2 ^ 32.
Proof.
  intros Hp.
  destruct (decide (PACKET_SIZE ≤ length data)%nat) as [Hlen | Hlen].
  - rewrite parsePacket_take in Hp by done.
    destruct (length_17_inv (take PACKET_SIZE data)) as (?&?&?&?&?&?&?&?&?&?&?&?&?&?&?&?&?&Heq).
    { rewrite length_take. lia. }
    rewrite Heq, parsePacket_frame in Hp. injection Hp as <-.
    apply be32_value_range.
  - rewrite parsePacket_short in Hp by lia. discriminate.
Qed.

End codec.

(** ** Computations *)

Section io.

Context {A B : Type}.

Lemma io_bind_ok t a (f : A → IO B) :
  io_bind (t, Ok a) f = (t ++ trace (f a), outcome (f a)).
Proof. cbn. by destruct (f a). Qed.


Lemma io_bind_assoc {C} (m : IO A) (f : A → IO B) (g : B → IO C) :
  io_bind (io_bind m f) g = io_bind m (λ a, io_bind (f a) g).
Proof.
  destruct m as [t [a | | |]]; cbn; try done.
  destruct (f a) as [t1 [b | | |]]; cbn; try done.
  destruct (g b). by rewrite app_assoc.
Qed.

End io.



(** ** The streaming phase *)

Lemma frames_of_data bytes t b data :
  take PACKET_SIZE bytes = b :: data →
  frames_of (EvRecv (RecvData bytes) :: t) = (b :: data) :: frames_of t.
Proof. intros Htake. unfold frames_of. cbn [omap list_omap frame_of_event]. by rewrite Htake. Qed.

Lemma frames_of_no_data bytes t :
  take PACKET_SIZE bytes = [] → frames_of (EvRecv (RecvData bytes) :: t) = frames_of t.
Proof. intros Htake. unfold frames_of. cbn [omap list_omap frame_of_event]. by rewrite Htake. Qed.

Lemma stream_loop_ok pending st t st' :
  stream_loop pending st = (t, Ok st') →
  ∃ new, mapM parsePacket (frames_of t) = Some new
         ∧ packets st' = packets st ++ new
         ∧ receivedSequences st' = list_to_set (sequence <$> new) ∪ receivedSequences st.
Proof.
  revert st t. induction pending as [| r rest IH]; intros st t Hrun.
  - inversion Hrun; subst. exists []. rewrite app_nil_r.
    split; [done |]. split; [done |]. set_solver.
  - cbn [stream_loop] in Hrun. destruct r as [| | bytes].
    + inversion Hrun; subst. exists []. rewrite app_nil_r.
      split; [done |]. split; [done |]. set_solver.
    + discriminate Hrun.
    + unfold receiveResponse in Hrun. rewrite io_bind_ok in Hrun.
      destruct (take PACKET_SIZE bytes) as [| b data] eqn:Htake.
      * inversion Hrun; subst. exists [].
        rewrite app_nil_r. cbn [trace io_ret fst app].
        rewrite frames_of_no_data by done.
        split; [done |]. split; [done |]. set_solver.
      * cbv beta iota in Hrun.
        destruct (parsePacket (b :: data)) as [p |] eqn:Hp; [| discriminate Hrun].
        unfold defined, io_ret in Hrun. rewrite io_bind_ok in Hrun.
        destruct (stream_loop rest _) as [t' r'] eqn:Hrest.
        cbn [trace outcome fst snd app] in Hrun. inversion Hrun; subst.
        apply IH in Hrest as (new & Hnew & Hpk & Hseq).
        cbn [packets receivedSequences] in Hpk, Hseq.
        exists (p :: new). rewrite (frames_of_data _ _ b data) by done.
        split; [| split].
        -- change (mapM parsePacket ((b :: data) :: frames_of t'))
             with (y ← parsePacket (b :: data); k ← mapM parsePacket (frames_of t'); mret (y :: k)).
           by rewrite Hp, Hnew.
        -- by rewrite Hpk, <- app_assoc.
        -- rewrite Hseq. set_solver.
Qed.

Lemma stream_phase_ok srv t st :
  stream_phase srv = (t, Ok st) →
  ∃ t', t = [EvConnect; EvSend [Cxx.to_char 1; Cxx.to_char 0]] ++ t'
        ∧ stream_loop (reads (primary srv)) (mkLocals [] ∅) = (t', Ok st)
        ∧ mapM parsePacket (frames_of t) = Some (packets st)
        ∧ receivedSequences st = list_to_set (sequence <$> packets st).
Proof.
  unfold stream_phase, connect, sendRequest. intros Hrun.
  destruct (accepts (primary srv)); [| discriminate Hrun].
  rewrite io_bind_ok in Hrun. cbn [trace outcome fst snd] in Hrun.
  destruct (writable (primary srv)); [| discriminate Hrun].
  rewrite io_bind_ok in Hrun.
  destruct (stream_loop _ _) as [t' r] eqn:Hloop.
  cbn in Hrun. injection Hrun as <- ->.
  exists t'. split; [done |]. split; [done |].
  apply stream_loop_ok in Hloop as (new & Hnew & Hpk & Hseq). cbn in Hpk, Hseq.
  subst new. split; [done |]. set_solver.
Qed.

(** ** Gap detection *)

Lemma missing_loop_spec fuel i lastSeq received missing :
  0 ≤ i → lastSeq < 2 ^ 32 → (Z.to_nat (lastSeq - i) < fuel)%nat →
  ∃ found, missing_loop fuel i lastSeq received missing = Some found
           ∧ ∀ j, j ∈ found ↔ j ∈ missing ∨ (i ≤ j < lastSeq ∧ j ∉ received).
Proof.
  revert i missing. induction fuel as [| fuel IH]; intros i missing Hi Hlast Hfuel; [lia |].
  cbn [missing_loop]. destruct (decide (i < lastSeq)) as [Hlt | Hge].
  - assert (Cxx.to_uint32 (i + 1) = i + 1) as ->
      by (unfold Cxx.to_uint32; apply Z.mod_small; lia).
    destruct (IH (i + 1) (if decide (i ∈ received) then missing else {[i]} ∪ missing))
      as (found & -> & Hfound); [lia | lia | lia |].
    exists found. split; [done |]. intros j. rewrite Hfound.
    destruct (decide (i ∈ received)); set_unfold;
      destruct (decide (j = i)); subst; intuition lia.
  - exists missing. split; [done |]. intros j. intuition lia.
Qed.

Lemma detect_missing_spec lastSeq received :
  lastSeq < 2 ^ 32 →
  ∃ missing, detect_missing lastSeq received = ([], Ok missing)
             ∧ ∀ j, j ∈ missing ↔ 1 ≤ j < lastSeq ∧ j ∉ received.
Proof.
  intros Hlast. unfold detect_missing.
  destruct (missing_loop_spec (S (Z.to_nat lastSeq)) 1 lastSeq received ∅)
    as (found & -> & Hfound); [lia | lia | lia |].
  exists found. split; [done |]. intros j. rewrite Hfound. set_solver.
Qed.

(** ** Traversal in increasing order *)

Lemma elem_of_in_order s j : j ∈ in_order s ↔ j ∈ s.
Proof. unfold in_order. by rewrite merge_sort_Permutation, elem_of_elements. Qed.

Lemma NoDup_in_order s : NoDup (in_order s).
Proof. unfold in_order. rewrite merge_sort_Permutation. apply NoDup_elements. Qed.

Lemma StronglySorted_le_lt (l : list Z) :
  StronglySorted Z.le l → NoDup l → StronglySorted Z.lt l.
Proof.
  induction 1 as [| x l Hl IH Hx]; intros Hnd; [constructor |].
  apply NoDup_cons in Hnd as [Hnotin Hnd]. constructor; [by apply IH |].
  rewrite Forall_forall in Hx |- *. intros y Hy.
  specialize (Hx y Hy). assert (x ≠ y) by (intros ->; done). lia.
Qed.

Lemma in_order_sorted s : StronglySorted Z.lt (in_order s).
Proof.
  apply StronglySorted_le_lt; [| apply NoDup_in_order].
  apply StronglySorted_merge_sort; apply _.
Qed.

Lemma in_order_empty : in_order ∅ = [].
Proof. unfold in_order. by rewrite elements_empty. Qed.

(** ** The recovery phase *)

Lemma recover_loop_app srv seqs1 seqs2 st :
  recover_loop srv (seqs1 ++ seqs2) st
  = (st' <-- recover_loop srv seqs1 st;; recover_loop srv seqs2 st').
Proof.
  revert st. induction seqs1 as [| seq seqs1 IH]; intros st.
  - cbn. by destruct (recover_loop srv seqs2 st).
  - cbn [app recover_loop]. rewrite io_bind_assoc.
    destruct (recover_one srv seq st) as [t [st1 | | |]]; try reflexivity.
    rewrite !io_bind_ok. cbv beta. by rewrite IH.
Qed.

Lemma recover_one_cooperative srv seq st :
  cooperative (retry srv seq) = true →
  recover_one srv seq st
  = (attempt_events (retry srv seq) seq,
     Ok {| packets := packets st ++ option_list (reply_packet (retry srv seq));
           receivedSequences := receivedSequences st |}).
Proof.
  unfold cooperative, recover_one, connect, sendRequest, attempt_events,
    reply_packet, reply, receiveResponse.
  intros Hcoop. destruct st as [pk sq]. cbn [packets receivedSequences].
  apply andb_prop in Hcoop as [Hcoop Hread]. apply andb_prop in Hcoop as [-> ->].
  rewrite !io_bind_ok. cbn [trace outcome fst snd].
  destruct (hd RecvEof (reads (retry srv seq))) as [| | bytes]; [| done |].
  - cbn. by rewrite app_nil_r.
  - rewrite io_bind_ok.
    destruct (take PACKET_SIZE bytes) as [| b data] eqn:Htake.
    + cbn. by rewrite app_nil_r.
    + apply orb_prop in Hread as [Hread | Hread];
        [by apply bool_decide_eq_true in Hread |].
      apply bool_decide_eq_true in Hread.
      destruct (parsePacket_long bytes Hread) as [p Hp].
      rewrite parsePacket_take, Htake in Hp by done.
      cbv beta iota. by rewrite Hp.
Qed.

Lemma recover_loop_cooperative srv seqs st :
  Forall (λ seq, cooperative (retry srv seq) = true) seqs →
  recover_loop srv seqs st
  = (concat ((λ seq, attempt_events (retry srv seq) seq) <$> seqs),
     Ok {| packets := packets st ++ omap (λ seq, reply_packet (retry srv seq)) seqs;
           receivedSequences := receivedSequences st |}).
Proof.
  intros Hall. revert st. induction Hall as [| seq seqs Hseq Hall IH]; intros st.
  - destruct st. cbn. by rewrite app_nil_r.
  - cbn [recover_loop]. rewrite recover_one_cooperative, io_bind_ok, IH by done.
    cbn [trace outcome fst snd packets receivedSequences fmap list_fmap concat].
    rewrite <- app_assoc. do 3 f_equal.
    cbn [omap list_omap]. by destruct (reply_packet (retry srv seq)).
Qed.

Lemma recover_one_raises srv seq st :
  raises (retry srv seq) = true →
  ∃ t, recover_one srv seq st = (t, Throw)
       ∧ t `prefix_of` attempt_events (retry srv seq) seq.
Proof.
  unfold raises, recover_one, connect, sendRequest, attempt_events, receiveResponse.
  intros Hraise.
  destruct (accepts (retry srv seq)).
  2:{ eexists. split; [done |]. by eexists. }
  rewrite io_bind_ok. cbn [trace outcome fst snd].
  destruct (writable (retry srv seq)).
  2:{ eexists. split; [done |]. by eexists. }
  rewrite io_bind_ok. cbn [trace outcome fst snd].
  destruct (hd RecvEof (reads (retry srv seq))); try discriminate Hraise.
  eexists. split; [done |]. by exists [].
Qed.



(** ** The whole function *)

Lemma packets_in_range srv t st :
  stream_phase srv = (t, Ok st) → Forall (λ p, 0 ≤ sequence p < 2 ^ 32) (packets st).
Proof.
  intros Hrun. apply stream_phase_ok in Hrun as (_ & _ & _ & Hparse & _).
  rewrite mapM_Some in Hparse.
  induction Hparse; constructor; eauto using sequence_range.
Qed.

Lemma back_in_range srv t st back :
  stream_phase srv = (t, Ok st) → last (packets st) = Some back →
  0 ≤ sequence back < 2 ^ 32.
Proof.
  intros Hrun Hlast. apply packets_in_range in Hrun.
  rewrite Forall_forall in Hrun. apply Hrun.
  apply last_Some in Hlast as [l ->]. set_solver.
Qed.

Lemma recovery_phase_gaps srv back st :
  sequence back < 2 ^ 32 →
  ∃ missing, (∀ j, j ∈ missing ↔ 1 ≤ j < sequence back ∧ j ∉ receivedSequences st)
             ∧ detect_missing (sequence back) (receivedSequences st) = ([], Ok missing)
             ∧ recovery_phase srv back st = recover_loop srv (in_order missing) st.
Proof.
  intros Hlast.
  destruct (detect_missing_spec (sequence back) (receivedSequences st) Hlast)
    as (missing & Hdetect & Hmissing).
  exists missing. split; [done |]. split; [done |].
  unfold recovery_phase. rewrite Hdetect, io_bind_ok. cbn [app].
  by destruct (recover_loop srv (in_order missing) st).
Qed.

Lemma fetch_after_stream std_sort dump srv t st back :
  stream_phase srv = (t, Ok st) → last (packets st) = Some back →
  fetchAndSaveData std_sort dump srv
  = ((t, Ok st);;; st' <-- recovery_phase srv back st;; save std_sort dump st').
Proof.
  intros Hrun Hlast. unfold fetchAndSaveData. rewrite Hrun, !io_bind_ok.
  by rewrite Hlast.
Qed.

Lemma stream_loop_no_packet pending st t st' :
  stream_loop pending st = (t, Ok st') → packets st' = packets st →
  ∃ r, t = [EvRecv r].
Proof.
  intros Hrun Hsame. destruct pending as [| r rest].
  - inversion Hrun. by eexists.
  - cbn [stream_loop] in Hrun. destruct r as [| | bytes].
    + inversion Hrun. by eexists.
    + discriminate Hrun.
    + unfold receiveResponse in Hrun. rewrite io_bind_ok in Hrun.
      destruct (take PACKET_SIZE bytes) as [| b data]; [inversion Hrun; by eexists |].
      cbv beta iota in Hrun.
      destruct (parsePacket (b :: data)) as [p |]; [| discriminate Hrun].
      unfold defined, io_ret in Hrun. rewrite io_bind_ok in Hrun.
      destruct (stream_loop rest _) as [t' r'] eqn:Hrest.
      cbn [trace outcome fst snd] in Hrun. inversion Hrun; subst.
      apply stream_loop_ok in Hrest as (new & _ & Hpk & _).
      cbn [packets] in Hpk. rewrite Hpk in Hsame.
      apply (f_equal length) in Hsame. rewrite !length_app in Hsame. cbn in Hsame. lia.
Qed.

Lemma save_unfold std_sort dump st :
  save std_sort dump st
  = if dump (output_json (std_sort (packets st)))
    then ([EvOpenFile; EvSave (std_sort (packets st))], Ok DataSaved)
    else ([EvOpenFile], Throw).
Proof. unfold save. cbv zeta. by destruct (dump _). Qed.


Lemma recovery_phase_cooperative srv back st :
  sequence back < 2 ^ 32 →
  (∀ m, 1 ≤ m < sequence back → m ∉ receivedSequences st →
        cooperative (retry srv m) = true) →
  ∃ seqs,
    StronglySorted Z.lt seqs ∧ NoDup seqs
    ∧ (∀ m, m ∈ seqs ↔ 1 ≤ m < sequence back ∧ m ∉ receivedSequences st)
    ∧ recovery_phase srv back st
      = (concat ((λ m, attempt_events (retry srv m) m) <$> seqs),
         Ok {| packets := packets st ++ omap (λ m, reply_packet (retry srv m)) seqs;
               receivedSequences := receivedSequences st |}).
Proof.
  intros Hback Hcoop.
  destruct (recovery_phase_gaps srv back st Hback) as (missing & Hmissing & _ & ->).
  exists (in_order missing).
  split; [apply in_order_sorted |]. split; [apply NoDup_in_order |].
  split; [intros m; by rewrite elem_of_in_order |].
  apply recover_loop_cooperative. rewrite Forall_forall. intros m Hm.
  apply elem_of_in_order, Hmissing in Hm as [Hrange Hnotin]. by apply Hcoop.
Qed.

Lemma fetch_saved std_sort dump srv t st back t' st' :
  stream_phase srv = (t, Ok st) → last (packets st) = Some back →
  recovery_phase srv back st = (t', Ok st') →
  fetchAndSaveData std_sort dump srv
  = if dump (output_json (std_sort (packets st')))
    then (t ++ t' ++ [EvOpenFile; EvSave (std_sort (packets st'))], Ok DataSaved)
    else (t ++ t' ++ [EvOpenFile], Throw).
Proof.
  intros Hrun Hlast Hrec.
  rewrite (fetch_after_stream _ _ _ _ _ _ Hrun Hlast), io_bind_ok, Hrec, io_bind_ok.
  rewrite save_unfold. by destruct (dump _).
Qed.

Lemma recovered_sequences srv seqs :
  Forall (λ m, recovers srv m = true) seqs →
  sequence <$> omap (λ m, reply_packet (retry srv m)) seqs = seqs.
Proof.
  induction 1 as [| m seqs Hm Hall IH]; [done |].
  cbn [omap list_omap]. unfold recovers in Hm.
  apply andb_prop in Hm as [_ Hm].
  destruct (reply_packet (retry srv m)) as [p |]; [| discriminate Hm].
  apply bool_decide_eq_true in Hm. cbn [fmap list_fmap]. fold (omap (λ m, reply_packet (retry srv m)) seqs).
  by rewrite Hm, IH.
Qed.

(** ** The sort used to run the model *)

Global Instance by_sequence_trans : Transitive by_sequence.
Proof. unfold by_sequence. intros a b c. lia. Qed.

Global Instance by_sequence_total : Total by_sequence.
Proof. unfold by_sequence. intros a b. lia. Qed.

Lemma StronglySorted_impl {A} (R1 R2 : relation A) l :
  (∀ a b, R1 a b → R2 a b) → StronglySorted R1 l → StronglySorted R2 l.
Proof.
  intros Himpl. induction 1 as [| x l Hl IH Hx]; constructor; [done |].
  eapply Forall_impl; eauto.
Qed.

Lemma stable_sort_contract : sort_contract stable_sort.
Proof.
  intros l. unfold stable_sort. split; [apply merge_sort_Permutation |].
  apply (StronglySorted_impl by_sequence); [unfold by_sequence; intros; lia |].
  apply StronglySorted_merge_sort; apply _.
Qed.

Example parse_example :
  parsePacket ["A"; "B"; "C"; "D"; "B"; "000"; "000"; "000"; "010";
               "000"; "000"; "001"; "000"; "255"; "000"; "000"; "003"]%byte
  = Some {| symbol := ["A"; "B"; "C"; "D"]%byte; side := Buy; quantity := 10;
            price := 256; sequence := 4278190083 |}.
Proof. reflexivity. Qed.


(** C3, as amended.  The decoder checks nothing: it yields a packet for
    every input of at least seventeen bytes, with byte 4 stored as the side
    whatever its value, and for a shorter input it reads past the end and
    yields none. *)
Theorem parsePacket_unchecked (data : list byte) :
  (parsePacket data = None ↔ (length data < PACKET_SIZE)%nat) ∧
  (∀ p, parsePacket data = Some p → data !! 4%nat = Some (side p)).
Proof.
  split.
  - split.
    + intros Hnone. destruct (decide (length data < PACKET_SIZE)%nat); [done |].
      destruct (parsePacket_long data) as [p Hp]; [lia | congruence].
    + apply parsePacket_short.
  - intros p Hp. unfold parsePacket in Hp. by simplify_option_eq.
Qed.

Lemma parsePacket_unchecked_witness :
  frame "X" 1 2 3 !! 4%nat = Some "X"%byte.
Proof.
  apply (proj2 (parsePacket_unchecked (frame "X" 1 2 3))
           (mkPacket ["A"; "B"; "C"; "D"]%byte "X" 1 2 3)).
  reflexivity.
Defined.

(** C3, as stated, fails: a full frame whose side byte is ['X'] is
    decoded. *)
Lemma decoder_validates_fails : ¬ decoder_validates.
Proof.
  intros Hval.
  assert (parsePacket (frame "X" 1 2 3) = None) as Hnone.
  { apply Hval. right. split; discriminate. }
  discriminate Hnone.
Qed.

(** C4.  On a frame of seventeen bytes the decoder yields a packet whose
    symbol is the first four bytes, whose side is byte 4, and whose
    quantity, price and sequence are the big-endian 32-bit integers at
    offsets 5, 9 and 13; laying the packet out again gives back the
    frame. *)
Theorem parsePacket_decodes_frame (data : list byte) :
  length data = PACKET_SIZE →
  ∃ p, parsePacket data = Some p
       ∧ symbol p = take 4 data
       ∧ data !! 4%nat = Some (side p)
       ∧ be32_at data 5 = Some (quantity p)
       ∧ be32_at data 9 = Some (price p)
       ∧ be32_at data 13 = Some (sequence p)
       ∧ frame_of_packet p = data.
Proof.
  intros Hlen.
  destruct (length_17_inv data Hlen) as (?&?&?&?&?&?&?&?&?&?&?&?&?&?&?&?&?&->).
  eexists. split; [apply parsePacket_frame |].
  repeat split; try reflexivity.
  unfold frame_of_packet. cbn [symbol side quantity price sequence].
  by rewrite !be32_bytes_value.
Qed.

Lemma parsePacket_decodes_frame_witness :
  ∃ p, parsePacket (frame Sell 10 256 4278190083) = Some p
       ∧ symbol p = take 4 (frame Sell 10 256 4278190083)
       ∧ frame Sell 10 256 4278190083 !! 4%nat = Some (side p)
       ∧ be32_at (frame Sell 10 256 4278190083) 5 = Some (quantity p)
       ∧ be32_at (frame Sell 10 256 4278190083) 9 = Some (price p)
       ∧ be32_at (frame Sell 10 256 4278190083) 13 = Some (sequence p)
       ∧ frame_of_packet p = frame Sell 10 256 4278190083.
Proof. apply (parsePacket_decodes_frame (frame Sell 10 256 4278190083)). reflexivity. Defined.

(** C1.  For a 32-bit [M] and any set [S] of received sequence numbers the
    detection loop ends and finds exactly the [i] with [1 ≤ i < M] that are
    not in [S]; when [S] covers [1, M] nothing is missing and the recovery
    phase opens no connection.  For [S = {1,2,4,5}] and [M = 5] the missing
    set is [{3}]. *)
Theorem detect_missing_exact :
  (∀ (S : gset Z) (M : Z),
     0 ≤ M < 2 ^ 32 →
     ∃ missing,
       detect_missing M S = ([], Ok missing)
       ∧ (∀ i, i ∈ missing ↔ 1 ≤ i < M ∧ i ∉ S)
       ∧ ((∀ i, 1 ≤ i ≤ M → i ∈ S) →
          missing = ∅ ∧
          ∀ srv back st,
            sequence back = M → receivedSequences st = S →
            recovery_phase srv back st = ([], Ok st)))
  ∧ detect_missing 5 {[1; 2; 4; 5]} = ([], Ok {[3]}).
Proof.
  assert (∀ (S : gset Z) (M : Z), 0 ≤ M < 2 ^ 32 →
            ∃ missing, detect_missing M S = ([], Ok missing)
                       ∧ (∀ i, i ∈ missing ↔ 1 ≤ i < M ∧ i ∉ S)) as Hgen.
  { intros S M [_ HM]. by apply detect_missing_spec. }
  split.
  - intros S M HM. destruct (Hgen S M HM) as (missing & Hdetect & Hmissing).
    exists missing. split; [done |]. split; [done |]. intros Hcover.
    assert (missing = ∅) as ->.
    { apply set_eq. intros i. rewrite Hmissing. set_unfold.
      split; [| done]. intros [Hi Hnotin]. apply Hnotin, Hcover. lia. }
    split; [done |]. intros srv back st <- <-.
    unfold recovery_phase. by rewrite Hdetect, io_bind_ok, in_order_empty.
  - destruct (Hgen {[1; 2; 4; 5]} 5) as (missing & -> & Hmissing); [lia |].
    do 2 f_equal. apply set_eq. intros i. rewrite Hmissing. set_unfold. lia.
Qed.

Lemma detect_missing_exact_witness :
  ∃ missing,
    detect_missing 10 {[1; 2; 3; 4; 5; 6; 7; 8; 9; 10]} = ([], Ok missing)
    ∧ (∀ i, i ∈ missing ↔ 1 ≤ i < 10 ∧ i ∉ ({[1; 2; 3; 4; 5; 6; 7; 8; 9; 10]} : gset Z))
    ∧ ((∀ i, 1 ≤ i ≤ 10 → i ∈ ({[1; 2; 3; 4; 5; 6; 7; 8; 9; 10]} : gset Z)) →
       missing = ∅ ∧
       ∀ srv back st,
         sequence back = 10 →
         receivedSequences st = {[1; 2; 3; 4; 5; 6; 7; 8; 9; 10]} →
         recovery_phase srv back st = ([], Ok st)).
Proof. apply (proj1 detect_missing_exact {[1; 2; 3; 4; 5; 6; 7; 8; 9; 10]} 10). lia. Defined.

(** C6.  Whatever the 32-bit sequence number, the one request written
    while it is recovered is the two bytes 2 and the sequence number
    modulo 256. *)
Theorem retrieve_request_low_byte srv seq st :
  accepts (retry srv seq) = true →
  requests_of (trace (recover_one srv seq st)) = [[2; seq mod 256]].
Proof.
  unfold recover_one, connect, sendRequest, receiveResponse. intros ->.
  rewrite io_bind_ok. cbn [trace outcome fst snd].
  assert ([Cxx.uchar (Cxx.to_char 2); Cxx.uchar (Cxx.to_char (Cxx.to_uint8 seq))]
          = [2; seq mod 256]) as Hreq.
  { rewrite !uchar_to_char. unfold Cxx.to_uint8. by rewrite Z.mod_mod. }
  destruct (writable (retry srv seq)); [| by rewrite <- Hreq].
  rewrite io_bind_ok. cbn [trace outcome fst snd].
  destruct (hd RecvEof (reads (retry srv seq))) as [| | bytes];
    try (by rewrite <- Hreq).
  rewrite io_bind_ok.
  destruct (take PACKET_SIZE bytes) as [| b data]; [by rewrite <- Hreq |].
  cbv beta iota. destruct (parsePacket (b :: data)); by rewrite <- Hreq.
Qed.

Lemma retrieve_request_low_byte_witness :
  requests_of (trace (recover_one srv_gap 259 {| packets := []; receivedSequences := ∅ |}))
  = [[2; 259 mod 256]].
Proof. apply (retrieve_request_low_byte srv_gap 259). reflexivity. Defined.

(** C8.  When the streaming phase ends without a packet, the function
    takes the early return after "No packets received.": what it did is
    the one connection, the streaming request and the read that ended the
    stream; no recovery connection is opened and nothing is saved. *)
Theorem no_packets_no_recovery std_sort dump srv t st :
  stream_phase srv = (t, Ok st) → packets st = [] →
  fetchAndSaveData std_sort dump srv = (t, Ok NoPacketsReceived)
  ∧ ∃ r, t = [EvConnect; EvSend [Cxx.to_char 1; Cxx.to_char 0]; EvRecv r].
Proof.
  intros Hrun Hnone. split.
  - unfold fetchAndSaveData. rewrite Hrun, io_bind_ok, Hnone. cbn. by rewrite app_nil_r.
  - apply stream_phase_ok in Hrun as (t' & -> & Hloop & _).
    apply stream_loop_no_packet in Hloop as [r ->]; [by exists r | done].
Qed.

Lemma no_packets_no_recovery_witness :
  fetchAndSaveData stable_sort ascii_dump srv_closed
  = (trace (stream_phase srv_closed), Ok NoPacketsReceived)
  ∧ ∃ r, trace (stream_phase srv_closed)
         = [EvConnect; EvSend [Cxx.to_char 1; Cxx.to_char 0]; EvRecv r].
Proof.
  apply (no_packets_no_recovery stable_sort ascii_dump srv_closed
           (trace (stream_phase srv_closed)) (locals_of (stream_phase srv_closed)));
    reflexivity.
Defined.

(** C9.  The bound of the gap detection is the sequence number of the last
    packet of the streaming phase in order of arrival: the sequence numbers
    recovered are those from 1 up to, but excluding, that number which were
    not received.  It is not the largest number received: after 1, 5, 3 the
    only recovery request is for 2. *)
Theorem last_packet_bounds_gaps :
  (∀ std_sort dump srv t st,
     stream_phase srv = (t, Ok st) → packets st ≠ [] →
     ∃ back missing,
       mapM parsePacket (frames_of t) = Some (packets st)
       ∧ last (packets st) = Some back
       ∧ (∀ i, i ∈ missing ↔ 1 ≤ i < sequence back ∧ i ∉ receivedSequences st)
       ∧ fetchAndSaveData std_sort dump srv
         = ((t, Ok st);;; st' <-- recover_loop srv (in_order missing) st;; save std_sort dump st'))
  ∧ requests_of (trace (fetchAndSaveData stable_sort ascii_dump srv_reordered)) = [[1; 0]; [2; 2]].
Proof.
  split; [| by vm_compute].
  intros std_sort dump srv t st Hrun Hsome.
  destruct (last (packets st)) as [back |] eqn:Hlast.
  2:{ apply last_None in Hlast. done. }
  pose proof (back_in_range _ _ _ _ Hrun Hlast) as [_ Hback].
  destruct (recovery_phase_gaps srv back st Hback) as (missing & Hmissing & _ & Hphase).
  exists back, missing.
  split; [by apply stream_phase_ok in Hrun as (_ & _ & _ & ? & _) |].
  split; [done |]. split; [done |].
  by rewrite (fetch_after_stream _ _ _ _ _ _ Hrun Hlast), Hphase.
Qed.

Lemma last_packet_bounds_gaps_witness :
  ∃ back missing,
    mapM parsePacket (frames_of (trace (stream_phase srv_reordered)))
    = Some (packets (locals_of (stream_phase srv_reordered)))
    ∧ last (packets (locals_of (stream_phase srv_reordered))) = Some back
    ∧ (∀ i, i ∈ missing ↔
            1 ≤ i < sequence back
            ∧ i ∉ receivedSequences (locals_of (stream_phase srv_reordered)))
    ∧ fetchAndSaveData stable_sort ascii_dump srv_reordered
      = ((trace (stream_phase srv_reordered), Ok (locals_of (stream_phase srv_reordered)));;;
         st' <-- recover_loop srv_reordered (in_order missing)
                   (locals_of (stream_phase srv_reordered));;
         save stable_sort ascii_dump st').
Proof.
  apply (proj1 last_packet_bounds_gaps stable_sort ascii_dump srv_reordered);
    [reflexivity | discriminate].
Defined.



(** C2, as amended.  When no operation of a recovery connection raises an
    error and each non-empty response is a full frame, the recovery phase
    visits the missing sequence numbers in increasing order, and for each
    one connects, writes one request of call type 2 and reads once; the
    packet of a non-empty response is appended to the packets only, the set
    of received sequence numbers being left as it was; after an empty
    response nothing is appended; the function then goes on to sort the
    packets and open the output file, and it saves the sorted array unless
    [dump] throws, in which case the exception leaves it. *)
Theorem recovery_attempts std_sort dump srv t st back :
  stream_phase srv = (t, Ok st) → last (packets st) = Some back →
  (∀ m, 1 ≤ m < sequence back → m ∉ receivedSequences st →
        cooperative (retry srv m) = true) →
  ∃ seqs,
    StronglySorted Z.lt seqs
    ∧ (∀ m, m ∈ seqs ↔ 1 ≤ m < sequence back ∧ m ∉ receivedSequences st)
    ∧ recovery_phase srv back st
      = (concat ((λ m, attempt_events (retry srv m) m) <$> seqs),
         Ok {| packets := packets st ++ omap (λ m, reply_packet (retry srv m)) seqs;
               receivedSequences := receivedSequences st |})
    ∧ fetchAndSaveData std_sort dump srv
      = let attempts := concat ((λ m, attempt_events (retry srv m) m) <$> seqs) in
        let out := std_sort (packets st ++ omap (λ m, reply_packet (retry srv m)) seqs) in
        if dump (output_json out)
        then (t ++ attempts ++ [EvOpenFile; EvSave out], Ok DataSaved)
        else (t ++ attempts ++ [EvOpenFile], Throw).
Proof.
  intros Hrun Hlast Hcoop.
  pose proof (back_in_range _ _ _ _ Hrun Hlast) as [_ Hback].
  destruct (recovery_phase_cooperative srv back st Hback Hcoop)
    as (seqs & Hsorted & _ & Hseqs & Hphase).
  exists seqs. split; [done |]. split; [done |]. split; [done |].
  by rewrite (fetch_saved std_sort dump _ _ _ _ _ _ Hrun Hlast Hphase).
Qed.

Lemma recovery_attempts_witness :
  ∃ seqs,
    StronglySorted Z.lt seqs
    ∧ (∀ m, m ∈ seqs ↔
            1 ≤ m < 5 ∧ m ∉ receivedSequences (locals_of (stream_phase srv_gap)))
    ∧ recovery_phase srv_gap (mkPacket ["A"; "B"; "C"; "D"]%byte Buy 10 20 5)
        (locals_of (stream_phase srv_gap))
      = (concat ((λ m, attempt_events (answers m) m) <$> seqs),
         Ok {| packets := packets (locals_of (stream_phase srv_gap))
                          ++ omap (λ m, reply_packet (answers m)) seqs;
               receivedSequences := receivedSequences (locals_of (stream_phase srv_gap)) |})
    ∧ fetchAndSaveData stable_sort ascii_dump srv_gap
      = let attempts := concat ((λ m, attempt_events (answers m) m) <$> seqs) in
        let out := stable_sort (packets (locals_of (stream_phase srv_gap))
                                ++ omap (λ m, reply_packet (answers m)) seqs) in
        if ascii_dump (output_json out)
        then (trace (stream_phase srv_gap) ++ attempts ++ [EvOpenFile; EvSave out],
              Ok DataSaved)
        else (trace (stream_phase srv_gap) ++ attempts ++ [EvOpenFile], Throw).
Proof.
  apply (recovery_attempts stable_sort ascii_dump srv_gap (trace (stream_phase srv_gap))
           (locals_of (stream_phase srv_gap))
           (mkPacket ["A"; "B"; "C"; "D"]%byte Buy 10 20 5));
    [reflexivity | reflexivity |].
  intros m Hm _. cbn [sequence] in Hm.
  assert (m = 1 ∨ m = 2 ∨ m = 3 ∨ m = 4) as [-> | [-> | [-> | ->]]] by lia;
    reflexivity.
Defined.

(** C2, as stated, fails: the packet recovered for sequence number 3 is
    among the packets, and 3 is not in the set of received sequence
    numbers. *)
Lemma recovered_not_recorded :
  ∃ t st back t' st',
    stream_phase srv_gap = (t, Ok st) ∧ last (packets st) = Some back
    ∧ recovery_phase srv_gap back st = (t', Ok st')
    ∧ 3 ∈ sequence <$> packets st'
    ∧ 3 ∉ receivedSequences st'.
Proof.
  do 5 eexists. split; [reflexivity |]. split; [reflexivity |].
  split; [vm_compute; reflexivity |].
  split; apply (bool_decide_unpack _); by vm_compute.
Qed.

(** C5, as amended.  An error raised by the connect, the write or the read
    of a recovery request is not contained: once the earlier missing
    sequence numbers have been handled, it leaves [fetchAndSaveData] as an
    exception, the later ones are not attempted and nothing is saved.  An
    empty response is not an error. *)
Theorem recovery_error_aborts std_sort dump srv t st back missing pre m post :
  stream_phase srv = (t, Ok st) → last (packets st) = Some back →
  detect_missing (sequence back) (receivedSequences st) = ([], Ok missing) →
  in_order missing = pre ++ m :: post →
  Forall (λ x, cooperative (retry srv x) = true) pre →
  raises (retry srv m) = true →
  ∃ tm,
    tm `prefix_of` attempt_events (retry srv m) m
    ∧ fetchAndSaveData std_sort dump srv
      = (t ++ concat ((λ x, attempt_events (retry srv x) x) <$> pre) ++ tm, Throw).
Proof.
  intros Hrun Hlast Hdetect Horder Hpre Hraise.
  rewrite (fetch_after_stream _ _ _ _ _ _ Hrun Hlast), io_bind_ok.
  unfold recovery_phase. rewrite Hdetect, io_bind_ok, Horder, recover_loop_app.
  rewrite (recover_loop_cooperative _ _ _ Hpre), io_bind_ok.
  cbn [recover_loop].
  destruct (recover_one_raises srv m
              {| packets := packets st ++ omap (λ seq, reply_packet (retry srv seq)) pre;
                 receivedSequences := receivedSequences st |} Hraise)
    as (tm & -> & Hprefix).
  exists tm. split; [done |]. reflexivity.
Qed.

Lemma recovery_error_aborts_witness :
  ∃ tm,
    tm `prefix_of` attempt_events (retry srv_retry_error 2) 2
    ∧ fetchAndSaveData stable_sort ascii_dump srv_retry_error
      = (trace (stream_phase srv_retry_error)
           ++ concat ((λ x, attempt_events (retry srv_retry_error x) x) <$> []) ++ tm,
         Throw).
Proof.
  apply (recovery_error_aborts stable_sort ascii_dump srv_retry_error
           (trace (stream_phase srv_retry_error))
           (locals_of (stream_phase srv_retry_error))
           (mkPacket ["A"; "B"; "C"; "D"]%byte Buy 10 20 4)
           {[2; 3]} [] 2 [3]);
    [reflexivity | reflexivity | reflexivity | reflexivity | constructor | reflexivity].
Defined.

(** C5, as stated, fails: the read of the request for sequence number 2
    fails, and the run ends there with the exception; the request for 3,
    whose connection would answer, is never made, and nothing is saved. *)
Lemma recovery_error_not_contained :
  raises (retry srv_retry_error 2) = true
  ∧ recovers srv_retry_error 3 = true
  ∧ fetchAndSaveData stable_sort ascii_dump srv_retry_error
    = (trace (stream_phase srv_retry_error) ++ attempt_events broken 2, Throw)
  ∧ requests_of (trace (fetchAndSaveData stable_sort ascii_dump srv_retry_error)) = [[1; 0]; [2; 2]].
Proof. by vm_compute. Qed.




(** The contract of the sort does not settle the order of packets with
    equal sequence numbers: a sort that meets it may put the packet seen
    second before the one seen first. *)
Lemma sort_contract_leaves_ties_open :
  sort_contract reversing_sort
  ∧ reversing_sort [mkPacket ["A"; "B"; "C"; "D"]%byte Buy 10 20 1;
                    mkPacket ["A"; "B"; "C"; "D"]%byte Sell 30 40 1]
    = [mkPacket ["A"; "B"; "C"; "D"]%byte Sell 30 40 1;
       mkPacket ["A"; "B"; "C"; "D"]%byte Buy 10 20 1].
Proof.
  split; [| reflexivity].
  intros l. unfold reversing_sort. split.
  - by rewrite merge_sort_Permutation, reverse_Permutation.
  - apply (StronglySorted_impl by_sequence); [unfold by_sequence; intros; lia |].
    apply StronglySorted_merge_sort; apply _.
Qed.


(** * Further properties of the code *)

(** ** [readInt32] and [parsePacket] on arbitrary input *)

Lemma readInt32_drop data offset :
  readInt32 data offset = readInt32 (drop offset data) 0.
Proof.
  unfold readInt32. rewrite !lookup_drop.
  by replace (offset + 0)%nat with offset by lia.
Qed.

Lemma parsePacket_layout data p :
  length data = PACKET_SIZE → parsePacket data = Some p → frame_of_packet p = data.
Proof.
  intros Hlen Hp.
  destruct (length_17_inv data Hlen) as (?&?&?&?&?&?&?&?&?&?&?&?&?&?&?&?&?&->).
  rewrite parsePacket_frame in Hp. injection Hp as <-.
  unfold frame_of_packet. cbn [symbol side quantity price sequence].
  by rewrite !be32_bytes_value.
Qed.

(** X1.  At any offset, [readInt32] is defined exactly when the four bytes
    lie inside the vector, and its value is then the big-endian number
    they hold, between 0 and 2^32 - 1: the shifts on the promoted [int]
    never leak a sign into the result. *)
Theorem readInt32_big_endian (data : list byte) (offset : nat) :
  readInt32 data offset = be32_at data offset
  ∧ (is_Some (readInt32 data offset) ↔ (offset + 3 < length data)%nat)
  ∧ (∀ v, readInt32 data offset = Some v → 0 ≤ v < 2 ^ 32).
Proof.
  assert (readInt32 data offset = be32_at data offset) as Heq.
  { rewrite readInt32_drop. unfold be32_at.
    destruct (drop offset data) as [| b0 [| b1 [| b2 [| b3 l]]]]; try reflexivity.
    unfold readInt32. cbn -[Cxx.to_uint32 Cxx.shl_int Cxx.uchar Z.lor].
    by rewrite or_shift_value. }
  split; [done |]. split.
  - split; [intros [v Hv]; by apply readInt32_Some in Hv |].
    intros Hlen. rewrite Heq. unfold be32_at.
    assert (length (take 4 (drop offset data)) = 4%nat) as Htake
      by (rewrite length_take, length_drop; lia).
    destruct (take 4 (drop offset data)) as [| b0 [| b1 [| b2 [| b3 [| b4 l]]]]];
      try discriminate Htake. by eexists.
  - intros v. rewrite Heq. unfold be32_at.
    destruct (take 4 (drop offset data)) as [| b0 [| b1 [| b2 [| b3 [| b4 l]]]]];
      try discriminate. intros [= <-]. apply be32_value_range.
Qed.

Lemma readInt32_big_endian_witness :
  0 ≤ 4278190083 < 2 ^ 32.
Proof.
  apply (proj2 (proj2 (readInt32_big_endian (frame Sell 10 256 4278190083) 13))).
  reflexivity.
Defined.

(** X2.  Two response frames of seventeen bytes that decode to the same
    packet are the same frame: the decoder loses nothing. *)
Theorem parsePacket_injective (data1 data2 : list byte) :
  length data1 = PACKET_SIZE → length data2 = PACKET_SIZE →
  parsePacket data1 = parsePacket data2 → data1 = data2.
Proof.
  intros Hlen1 Hlen2 Heq.
  destruct (parsePacket_long data1) as [p Hp]; [lia |].
  rewrite <- (parsePacket_layout data1 p), <- (parsePacket_layout data2 p); congruence.
Qed.

Lemma parsePacket_injective_witness :
  frame Buy 10 20 3 = frame Buy 10 20 (3 + 2 ^ 32).
Proof. apply parsePacket_injective; reflexivity. Defined.

(** X3.  Whatever the input, a packet that [parsePacket] yields has a
    symbol of four bytes and a quantity, a price and a sequence number
    between 0 and 2^32 - 1. *)
Theorem parsePacket_fields_bounded (data : list byte) (p : Packet) :
  parsePacket data = Some p →
  length (symbol p) = 4%nat
  ∧ 0 ≤ quantity p < 2 ^ 32 ∧ 0 ≤ price p < 2 ^ 32 ∧ 0 ≤ sequence p < 2 ^ 32.
Proof.
  intros Hp.
  destruct (decide (PACKET_SIZE ≤ length data)%nat) as [Hlen | Hlen].
  - rewrite parsePacket_take in Hp by done.
    destruct (length_17_inv (take PACKET_SIZE data))
      as (?&?&?&?&?&?&?&?&?&?&?&?&?&?&?&?&?&Heq).
    { rewrite length_take. lia. }
    rewrite Heq, parsePacket_frame in Hp. injection Hp as <-.
    cbn [symbol quantity price sequence length].
    split; [done |]. split_and!; apply be32_value_range.
  - rewrite parsePacket_short in Hp by lia. discriminate.
Qed.

Lemma parsePacket_fields_bounded_witness :
  length (symbol (mkPacket ["A"; "B"; "C"; "D"]%byte Sell 10 256 4278190083)) = 4%nat
  ∧ 0 ≤ 10 < 2 ^ 32 ∧ 0 ≤ 256 < 2 ^ 32 ∧ 0 ≤ 4278190083 < 2 ^ 32.
Proof.
  apply (parsePacket_fields_bounded
           (frame Sell 10 256 4278190083 ++ ["Z"; "Z"]%byte)
           (mkPacket ["A"; "B"; "C"; "D"]%byte Sell 10 256 4278190083)).
  reflexivity.
Defined.

(** ** The streaming phase on whole frames, short reads and errors *)

Lemma stream_loop_eof tail st :
  hd RecvEof tail = RecvEof → stream_loop tail st = ([EvRecv RecvEof], Ok st).
Proof. destruct tail as [| r rest]; [done |]. cbn [hd]. by intros ->. Qed.

Lemma stream_loop_frames pre tail st :
  Forall (λ d, length d = PACKET_SIZE) pre →
  ∃ new,
    mapM parsePacket pre = Some new
    ∧ stream_loop ((RecvData <$> pre) ++ tail) st
      = let st' := {| packets := packets st ++ new;
                      receivedSequences :=
                        list_to_set (sequence <$> new) ∪ receivedSequences st |} in
        (((λ d, EvRecv (RecvData d)) <$> pre) ++ trace (stream_loop tail st'),
         outcome (stream_loop tail st')).
Proof.
  intros Hpre. revert st. induction Hpre as [| d pre Hd Hpre IH]; intros st.
  - exists []. split; [done |]. destruct st as [pk sq]. cbn [packets receivedSequences].
    rewrite app_nil_r. cbn [fmap list_fmap app list_to_set foldr].
    rewrite (left_id_L ∅ (∪)). by destruct (stream_loop tail _).
  - destruct (parsePacket_long d) as [p Hp]; [lia |].
    destruct (IH {| packets := packets st ++ [p];
                    receivedSequences := {[sequence p]} ∪ receivedSequences st |})
      as (new & Hnew & Hloop).
    exists (p :: new). split.
    { change (mapM parsePacket (d :: pre))
        with (y ← parsePacket d; k ← mapM parsePacket pre; mret (y :: k)).
      by rewrite Hp, Hnew. }
    cbn [fmap list_fmap app stream_loop]. unfold receiveResponse.
    rewrite io_bind_ok, take_ge by lia.
    destruct d as [| b data]; [discriminate Hd |].
    cbv beta iota. rewrite Hp. unfold defined, io_ret. rewrite io_bind_ok.
    fold (fmap (M := list) RecvData pre). rewrite Hloop.
    cbn [trace outcome fst snd packets receivedSequences app].
    rewrite <- app_assoc. cbn [app].
    replace (list_to_set (sequence <$> new) ∪ ({[sequence p]} ∪ receivedSequences st))
      with (list_to_set (sequence <$> p :: new) ∪ receivedSequences st) by set_solver.
    reflexivity.
Qed.

Lemma stream_phase_unfold srv :
  accepts (primary srv) = true → writable (primary srv) = true →
  stream_phase srv
  = ([EvConnect; EvSend [Cxx.to_char 1; Cxx.to_char 0]]
       ++ trace (stream_loop (reads (primary srv)) (mkLocals [] ∅)),
     outcome (stream_loop (reads (primary srv)) (mkLocals [] ∅))).
Proof.
  intros Hacc Hwr. unfold stream_phase, connect, sendRequest. rewrite Hacc, Hwr.
  rewrite !io_bind_ok. cbn [trace outcome fst snd].
  by destruct (stream_loop _ _).
Qed.

Lemma frames_of_bounded t : Forall (λ d, (length d ≤ PACKET_SIZE)%nat) (frames_of t).
Proof.
  induction t as [| e t IH]; [constructor |].
  destruct e as [| request | [| | bytes] | | output]; try exact IH.
  destruct (take PACKET_SIZE bytes) as [| b data] eqn:Htake.
  - by rewrite frames_of_no_data.
  - rewrite (frames_of_data _ _ b data) by done. constructor; [| done].
    rewrite <- Htake, length_take. lia.
Qed.

Lemma decoded_frames_full fs ps :
  Forall (λ d, (length d ≤ PACKET_SIZE)%nat) fs → mapM parsePacket fs = Some ps →
  Forall (λ d, length d = PACKET_SIZE) fs.
Proof.
  intros Hle Hparse. apply mapM_Some in Hparse.
  induction Hparse as [| d p fs ps Hp Hrest IH]; [constructor |].
  apply Forall_cons in Hle as [Hd Hle]. constructor; [| by apply IH].
  destruct (decide (length d < PACKET_SIZE)%nat) as [Hshort | ?]; [| lia].
  rewrite parsePacket_short in Hp by done. discriminate.
Qed.

(** X4.  A stream of whole frames that the server then closes is collected
    in full: the streaming phase returns the decoded packets in order of
    arrival, with the set of their sequence numbers, after one connect,
    the request [1, 0], one read per frame and the read that reports the
    end. *)
Theorem stream_phase_collects srv pre tail :
  accepts (primary srv) = true → writable (primary srv) = true →
  reads (primary srv) = (RecvData <$> pre) ++ tail →
  Forall (λ d, length d = PACKET_SIZE) pre → hd RecvEof tail = RecvEof →
  ∃ new,
    mapM parsePacket pre = Some new
    ∧ stream_phase srv
      = ([EvConnect; EvSend [Cxx.to_char 1; Cxx.to_char 0]]
           ++ ((λ d, EvRecv (RecvData d)) <$> pre) ++ [EvRecv RecvEof],
         Ok {| packets := new; receivedSequences := list_to_set (sequence <$> new) |}).
Proof.
  intros Hacc Hwr Hreads Hpre Htail.
  destruct (stream_loop_frames pre tail (mkLocals [] ∅) Hpre) as (new & Hnew & Hloop).
  exists new. split; [done |].
  rewrite stream_phase_unfold, Hreads, Hloop by done.
  cbv zeta. rewrite stream_loop_eof by done.
  cbn [trace outcome fst snd packets receivedSequences app].
  by rewrite (right_id_L ∅ (∪)).
Qed.

Lemma stream_phase_collects_witness :
  ∃ new,
    mapM parsePacket [frame Buy 10 20 1; frame Buy 10 20 5; frame Buy 10 20 3] = Some new
    ∧ stream_phase srv_reordered
      = ([EvConnect; EvSend [Cxx.to_char 1; Cxx.to_char 0]]
           ++ ((λ d, EvRecv (RecvData d))
                 <$> [frame Buy 10 20 1; frame Buy 10 20 5; frame Buy 10 20 3])
           ++ [EvRecv RecvEof],
         Ok {| packets := new; receivedSequences := list_to_set (sequence <$> new) |}).
Proof.
  apply (stream_phase_collects srv_reordered
           [frame Buy 10 20 1; frame Buy 10 20 5; frame Buy 10 20 3] []);
    [reflexivity | reflexivity | reflexivity | | reflexivity].
  repeat constructor.
Defined.

(** X5.  When the streaming phase returns, the packets are the decodings
    of the frames read, in order of arrival, each frame having exactly
    seventeen bytes, and the set of received sequence numbers holds
    exactly the sequence numbers of these packets. *)
Theorem stream_phase_invariant srv t st :
  stream_phase srv = (t, Ok st) →
  mapM parsePacket (frames_of t) = Some (packets st)
  ∧ Forall (λ d, length d = PACKET_SIZE) (frames_of t)
  ∧ (∀ i, i ∈ receivedSequences st ↔ i ∈ sequence <$> packets st).
Proof.
  intros Hrun. apply stream_phase_ok in Hrun as (_ & _ & _ & Hparse & Hreceived).
  split; [done |]. split.
  - eapply decoded_frames_full; [apply frames_of_bounded | done].
  - intros i. by rewrite Hreceived, elem_of_list_to_set.
Qed.

Lemma stream_phase_invariant_witness :
  mapM parsePacket (frames_of (trace (stream_phase srv_gap)))
  = Some (packets (locals_of (stream_phase srv_gap)))
  ∧ Forall (λ d, length d = PACKET_SIZE) (frames_of (trace (stream_phase srv_gap)))
  ∧ (∀ i, i ∈ receivedSequences (locals_of (stream_phase srv_gap))
          ↔ i ∈ sequence <$> packets (locals_of (stream_phase srv_gap))).
Proof.
  apply (stream_phase_invariant srv_gap (trace (stream_phase srv_gap))
           (locals_of (stream_phase srv_gap))).
  reflexivity.
Defined.

Lemma fetch_stream_throw std_sort dump srv t :
  stream_phase srv = (t, Throw) → fetchAndSaveData std_sort dump srv = (t, Throw).
Proof. intros Hrun. unfold fetchAndSaveData. by rewrite Hrun. Qed.

Lemma fetch_stream_undefined std_sort dump srv t :
  stream_phase srv = (t, Undefined) → fetchAndSaveData std_sort dump srv = (t, Undefined).
Proof. intros Hrun. unfold fetchAndSaveData. by rewrite Hrun. Qed.

(** X6.  Frames are not reassembled: when, after any number of whole
    frames, a read delivers between 1 and 16 bytes, [parsePacket] reads
    past the end of the vector; the run has no defined result from there
    on, and up to there nothing has been recovered or saved. *)
Theorem short_read_undefined std_sort dump srv pre bytes rest :
  accepts (primary srv) = true → writable (primary srv) = true →
  reads (primary srv) = (RecvData <$> pre) ++ RecvData bytes :: rest →
  Forall (λ d, length d = PACKET_SIZE) pre →
  (0 < length bytes < PACKET_SIZE)%nat →
  fetchAndSaveData std_sort dump srv
  = ([EvConnect; EvSend [Cxx.to_char 1; Cxx.to_char 0]]
       ++ ((λ d, EvRecv (RecvData d)) <$> pre) ++ [EvRecv (RecvData bytes)],
     Undefined).
Proof.
  intros Hacc Hwr Hreads Hpre Hshort.
  destruct (stream_loop_frames pre (RecvData bytes :: rest) (mkLocals [] ∅) Hpre)
    as (new & _ & Hloop).
  apply fetch_stream_undefined.
  rewrite stream_phase_unfold, Hreads, Hloop by done. cbv zeta.
  cbn [stream_loop]. unfold receiveResponse. rewrite io_bind_ok, take_ge by lia.
  destruct bytes as [| b data]; [cbn in Hshort; lia |].
  cbv beta iota. by rewrite parsePacket_short by lia.
Qed.

Lemma short_read_undefined_witness :
  fetchAndSaveData stable_sort ascii_dump srv_short_read
  = ([EvConnect; EvSend [Cxx.to_char 1; Cxx.to_char 0]]
       ++ ((λ d, EvRecv (RecvData d)) <$> [frame Buy 10 20 1; frame Buy 10 20 2])
       ++ [EvRecv (RecvData (take 5 (frame Buy 10 20 3)))],
     Undefined).
Proof.
  apply (short_read_undefined stable_sort ascii_dump srv_short_read
           [frame Buy 10 20 1; frame Buy 10 20 2] (take 5 (frame Buy 10 20 3)) []);
    [reflexivity | reflexivity | reflexivity | | ].
  - repeat constructor.
  - vm_compute. lia.
Defined.

(** X7.  A read error during the streaming phase ends the run with the
    exception, whatever was received before it: the packets collected so
    far are dropped, no recovery connection is opened and nothing is
    saved. *)
Theorem stream_error_aborts std_sort dump srv pre rest :
  accepts (primary srv) = true → writable (primary srv) = true →
  reads (primary srv) = (RecvData <$> pre) ++ RecvError :: rest →
  Forall (λ d, length d = PACKET_SIZE) pre →
  fetchAndSaveData std_sort dump srv
  = ([EvConnect; EvSend [Cxx.to_char 1; Cxx.to_char 0]]
       ++ ((λ d, EvRecv (RecvData d)) <$> pre) ++ [EvRecv RecvError],
     Throw).
Proof.
  intros Hacc Hwr Hreads Hpre.
  destruct (stream_loop_frames pre (RecvError :: rest) (mkLocals [] ∅) Hpre)
    as (new & _ & Hloop).
  apply fetch_stream_throw.
  by rewrite stream_phase_unfold, Hreads, Hloop by done.
Qed.

Lemma stream_error_aborts_witness :
  fetchAndSaveData stable_sort ascii_dump srv_stream_error
  = ([EvConnect; EvSend [Cxx.to_char 1; Cxx.to_char 0]]
       ++ ((λ d, EvRecv (RecvData d)) <$> [frame Buy 10 20 1; frame Buy 10 20 2])
       ++ [EvRecv RecvError],
     Throw).
Proof.
  apply (stream_error_aborts stable_sort ascii_dump srv_stream_error
           [frame Buy 10 20 1; frame Buy 10 20 2] []);
    [reflexivity | reflexivity | reflexivity | ].
  repeat constructor.
Defined.

(** ** Recovery requests *)

(** X8.  A recovery response of between 1 and 16 bytes is handed to
    [parsePacket] as it is: the attempt makes its three operations and
    then has no defined result. *)
Theorem short_reply_undefined srv seq st bytes :
  accepts (retry srv seq) = true → writable (retry srv seq) = true →
  hd RecvEof (reads (retry srv seq)) = RecvData bytes →
  (0 < length bytes < PACKET_SIZE)%nat →
  recover_one srv seq st = (attempt_events (retry srv seq) seq, Undefined).
Proof.
  intros Hacc Hwr Hread Hshort.
  unfold recover_one, connect, sendRequest, receiveResponse, attempt_events.
  rewrite Hacc, Hwr, Hread, !io_bind_ok. cbn [trace outcome fst snd].
  rewrite ?io_bind_ok, take_ge by lia.
  destruct bytes as [| b data]; [cbn in Hshort; lia |].
  cbv beta iota. rewrite parsePacket_short by lia.
  cbn [trace outcome fst snd defined io_bind]. reflexivity.
Qed.

Lemma short_reply_undefined_witness :
  recover_one srv_short_reply 2 {| packets := []; receivedSequences := ∅ |}
  = (attempt_events (retry srv_short_reply 2) 2, Undefined).
Proof.
  apply (short_reply_undefined srv_short_reply 2 _ (take 5 (frame Sell 30 40 2)));
    [reflexivity | reflexivity | reflexivity | ].
  vm_compute. lia.
Defined.

Lemma recover_one_requests srv seq st :
  accepts (retry srv seq) = true →
  requests_of (trace (recover_one srv seq st)) = [[2; seq mod 256]].
Proof.
  unfold recover_one, connect, sendRequest, receiveResponse. intros ->.
  rewrite io_bind_ok. cbn [trace outcome fst snd].
  assert ([Cxx.uchar (Cxx.to_char 2); Cxx.uchar (Cxx.to_char (Cxx.to_uint8 seq))]
          = [2; seq mod 256]) as Hreq.
  { rewrite !uchar_to_char. unfold Cxx.to_uint8. by rewrite Z.mod_mod. }
  destruct (writable (retry srv seq)); [| by rewrite <- Hreq].
  rewrite io_bind_ok. cbn [trace outcome fst snd].
  destruct (hd RecvEof (reads (retry srv seq))) as [| | bytes];
    try (by rewrite <- Hreq).
  rewrite io_bind_ok.
  destruct (take PACKET_SIZE bytes) as [| b data]; [by rewrite <- Hreq |].
  cbv beta iota. destruct (parsePacket (b :: data)); by rewrite <- Hreq.
Qed.

(** X9.  Sequence numbers that agree modulo 256 are asked for with the
    same bytes: the request written for one cannot be told from the
    request written for the other. *)
Theorem recovery_requests_alias srv seq1 seq2 st1 st2 :
  accepts (retry srv seq1) = true → accepts (retry srv seq2) = true →
  seq1 mod 256 = seq2 mod 256 →
  requests_of (trace (recover_one srv seq1 st1))
  = requests_of (trace (recover_one srv seq2 st2)).
Proof.
  intros Hacc1 Hacc2 Hmod. rewrite !recover_one_requests by done. by rewrite Hmod.
Qed.

Lemma recovery_requests_alias_witness :
  requests_of (trace (recover_one srv_gap 3 {| packets := []; receivedSequences := ∅ |}))
  = requests_of (trace (recover_one srv_gap 259 {| packets := []; receivedSequences := ∅ |})).
Proof. apply recovery_requests_alias; reflexivity. Defined.

(** ** The exit status *)

Lemma io_bind_fuel {A B} (m : IO A) (f : A → IO B) :
  outcome m ≠ OutOfFuel →
  (∀ t a, m = (t, Ok a) → outcome (f a) ≠ OutOfFuel) →
  outcome (io_bind m f) ≠ OutOfFuel.
Proof.
  destruct m as [t [a | | |]]; cbn; intros Hm Hf; try done.
  specialize (Hf t a eq_refl). by destruct (f a).
Qed.

Lemma stream_loop_fuel pending st : outcome (stream_loop pending st) ≠ OutOfFuel.
Proof.
  revert st. induction pending as [| r rest IH]; intros st; [done |].
  cbn [stream_loop]. apply io_bind_fuel; [by destruct r |].
  intros t [| b data] _; [done |].
  apply io_bind_fuel; [by destruct (parsePacket (b :: data)) |].
  intros; apply IH.
Qed.

Lemma stream_phase_fuel srv : outcome (stream_phase srv) ≠ OutOfFuel.
Proof.
  unfold stream_phase. apply io_bind_fuel.
  { unfold connect. by destruct (accepts (primary srv)). }
  intros _ _ _. apply io_bind_fuel.
  { unfold sendRequest. by destruct (writable (primary srv)). }
  intros _ _ _. apply stream_loop_fuel.
Qed.

Lemma recover_one_fuel srv seq st : outcome (recover_one srv seq st) ≠ OutOfFuel.
Proof.
  unfold recover_one. apply io_bind_fuel.
  { unfold connect. by destruct (accepts (retry srv seq)). }
  intros _ _ _. apply io_bind_fuel.
  { unfold sendRequest. by destruct (writable (retry srv seq)). }
  intros _ _ _. apply io_bind_fuel.
  { by destruct (hd RecvEof (reads (retry srv seq))). }
  intros t [| b data] _; [done |].
  apply io_bind_fuel; [by destruct (parsePacket (b :: data)) | done].
Qed.

Lemma recover_loop_fuel srv seqs st : outcome (recover_loop srv seqs st) ≠ OutOfFuel.
Proof.
  revert st. induction seqs as [| seq seqs IH]; intros st; [done |].
  cbn [recover_loop]. apply io_bind_fuel; [apply recover_one_fuel |].
  intros; apply IH.
Qed.

Lemma fetch_fuel std_sort dump srv : outcome (fetchAndSaveData std_sort dump srv) ≠ OutOfFuel.
Proof.
  unfold fetchAndSaveData. apply io_bind_fuel; [apply stream_phase_fuel |].
  intros t st Hrun. destruct (last (packets st)) as [back |] eqn:Hlast; [| done].
  apply io_bind_fuel.
  - pose proof (back_in_range _ _ _ _ Hrun Hlast) as [_ Hback].
    destruct (recovery_phase_gaps srv back st Hback) as (missing & _ & _ & ->).
    apply recover_loop_fuel.
  - intros t' st' _. rewrite save_unfold. by destruct (dump _).
Qed.

(** X11.  [main] performs what [fetchAndSaveData] performs and lets no
    exception out: unless the run made an out-of-bounds read, the exit
    status is 0, after a failed run as after a saved one. *)
Theorem main_exit_status std_sort dump srv :
  trace (main std_sort dump srv) = trace (fetchAndSaveData std_sort dump srv)
  ∧ outcome (main std_sort dump srv) ≠ Throw
  ∧ (outcome (fetchAndSaveData std_sort dump srv) ≠ Undefined →
     outcome (main std_sort dump srv) = Ok 0).
Proof.
  pose proof (fetch_fuel std_sort dump srv) as Hfuel. unfold main.
  destruct (fetchAndSaveData std_sort dump srv) as [t [s | | |]];
    cbn in Hfuel |- *; rewrite ?app_nil_r; done.
Qed.

Lemma main_exit_status_witness : outcome (main stable_sort ascii_dump srv_stream_error) = Ok 0.
Proof. apply (main_exit_status stable_sort ascii_dump srv_stream_error). discriminate. Defined.

(** A run whose [dump] throws: the frame is decoded, nothing is missing,
    the output file is opened and the exception leaves [fetchAndSaveData]
    with nothing inserted; [main] exits with status 0. *)
Example raw_symbol_not_saved :
  fetchAndSaveData stable_sort ascii_dump srv_raw_symbol
  = (trace (stream_phase srv_raw_symbol) ++ [EvOpenFile], Throw)
  ∧ outcome (main stable_sort ascii_dump srv_raw_symbol) = Ok 0.
Proof. by vm_compute. Qed.

(** ** The JSON output *)

Lemma push_back_all (l : list Packet) (output : list json) :
  foldl (λ output packet, output ++ [toJSON packet]) output l
  = output ++ (toJSON <$> l).
Proof.
  revert output. induction l as [| p l IH]; intros output; cbn [foldl fmap list_fmap].
  - by rewrite app_nil_r.
  - fold (fmap (M := list) toJSON l). by rewrite IH, <- app_assoc.
Qed.

Lemma toJSON_member p key :
  match toJSON p with JObject members => members !! key | _ => None end
  = if decide (key = "symbol"%string) then Some (JString (symbol p))
    else if decide (key = "side"%string) then Some (JString [side p])
    else if decide (key = "quantity"%string) then Some (JUnsigned (quantity p))
    else if decide (key = "price"%string) then Some (JUnsigned (price p))
    else if decide (key = "sequence"%string) then Some (JUnsigned (sequence p))
    else None.
Proof.
  unfold toJSON, list_to_map. cbn [foldr fst snd].
  rewrite !lookup_insert, lookup_empty.
  repeat case_decide; congruence.
Qed.

Lemma toJSON_inj p q : toJSON p = toJSON q → p = q.
Proof.
  intros Heq.
  assert (∀ key, match toJSON p with JObject members => members !! key | _ => None end
                 = match toJSON q with JObject members => members !! key | _ => None end)
    as Hkey by (intros key; by rewrite Heq).
  pose proof (Hkey "symbol"%string) as Hsym.
  pose proof (Hkey "side"%string) as Hside.
  pose proof (Hkey "quantity"%string) as Hquantity.
  pose proof (Hkey "price"%string) as Hprice.
  pose proof (Hkey "sequence"%string) as Hsequence.
  rewrite !toJSON_member in Hsym, Hside, Hquantity, Hprice, Hsequence.
  repeat case_decide; try done.
  destruct p, q. cbn in *. congruence.
Qed.

(** X12.  The JSON array has one object per packet, in the order of the
    sorted packets, and loses nothing: packets with equal objects are
    equal, and lists of packets with equal arrays are equal. *)
Theorem output_json_faithful :
  (∀ l, output_json l = JArray (toJSON <$> l))
  ∧ (∀ p q, toJSON p = toJSON q → p = q)
  ∧ (∀ l1 l2, output_json l1 = output_json l2 → l1 = l2).
Proof.
  assert (∀ l, output_json l = JArray (toJSON <$> l)) as Hmap
    by (intros l; unfold output_json; by rewrite push_back_all).
  split; [done |]. split; [apply toJSON_inj |].
  intros l1 l2. rewrite !Hmap. intros Harray.
  assert (toJSON <$> l1 = toJSON <$> l2) as Heq by congruence. clear Harray.
  revert l2 Heq. induction l1 as [| p l1 IH]; intros [| q l2] Heq; try done.
  cbn [fmap list_fmap] in Heq.
  f_equal; [apply toJSON_inj | apply IH]; congruence.
Qed.

Lemma output_json_faithful_witness :
  [mkPacket ["A"; "B"; "C"; "D"]%byte Buy 10 20 1] = [mkPacket ["A"; "B"; "C"; "D"]%byte Buy 10 20 1].
Proof. apply (proj2 (proj2 output_json_faithful)). reflexivity. Defined.

(** ** The output of a clean run *)

Lemma seq_sorted (start len : nat) : StronglySorted le (seq start len).
Proof.
  revert start. induction len as [| len IH]; intros start; cbn [seq]; constructor.
  - apply IH.
  - apply Forall_seq. intros; lia.
Qed.

Lemma seqZ_sorted (m len : Z) : StronglySorted Z.le (seqZ m len).
Proof.
  unfold seqZ. apply (StronglySorted_fmap _ le); [intros; lia | apply seq_sorted].
Qed.

(** X13.  When the streamed sequence numbers are distinct and lie between
    1 and that of the last streamed packet, and every missing one is
    answered with its packet, the array handed to the JSON output holds
    the sequence numbers 1, 2, ... up to that of the last streamed packet,
    each once and in this order; it is saved unless [dump] throws. *)
Theorem clean_run_output std_sort dump srv t st back :
  sort_contract std_sort →
  stream_phase srv = (t, Ok st) → last (packets st) = Some back →
  clean_stream st back →
  (∀ m, 1 ≤ m < sequence back → m ∉ receivedSequences st → recovers srv m = true) →
  ∃ t' out,
    fetchAndSaveData std_sort dump srv
    = (if dump (output_json out)
       then (t ++ t' ++ [EvOpenFile; EvSave out], Ok DataSaved)
       else (t ++ t' ++ [EvOpenFile], Throw))
    ∧ sequence <$> out = seqZ 1 (sequence back).
Proof.
  intros Hsort Hrun Hlast [Hdistinct Hrange] Hrec.
  pose proof (back_in_range _ _ _ _ Hrun Hlast) as [_ Hback].
  destruct (recovery_phase_cooperative srv back st Hback)
    as (seqs & _ & Hnodup & Hseqs & Hphase).
  { intros m Hm Hnotin. specialize (Hrec m Hm Hnotin).
    unfold recovers in Hrec. by apply andb_prop in Hrec as [? _]. }
  pose proof (fetch_saved std_sort dump _ _ _ _ _ _ Hrun Hlast Hphase) as Hfetch.
  cbn [packets] in Hfetch.
  set (recovered := omap (λ m, reply_packet (retry srv m)) seqs) in *.
  assert (sequence <$> recovered = seqs) as Hrecovered.
  { apply recovered_sequences. rewrite Forall_forall. intros m Hm.
    apply Hseqs in Hm as [? ?]. by apply Hrec. }
  destruct (Hsort (packets st ++ recovered)) as [Hperm Hsorted].
  apply stream_phase_ok in Hrun as (_ & _ & _ & _ & Hreceived).
  assert (∀ i, i ∈ sequence <$> packets st ↔ i ∈ receivedSequences st) as Hseen
    by (intros i; by rewrite Hreceived, elem_of_list_to_set).
  eexists _, _. split; [exact Hfetch |].
  apply (StronglySorted_unique_strong Z.le).
  - intros; lia.
  - apply (StronglySorted_fmap sequence (λ a b, ¬ sequence b < sequence a));
      [intros; lia | done].
  - apply seqZ_sorted.
  - rewrite Hperm, fmap_app, Hrecovered.
    apply NoDup_Permutation; [| apply NoDup_seqZ |].
    + apply NoDup_app. split; [done |]. split; [| done].
      intros i Hi Hi'. apply Hseqs in Hi' as [_ Hnotin]. by apply Hnotin, Hseen.
    + intros i. rewrite elem_of_app, elem_of_seqZ, Hseqs. split.
      * intros [Hi | [Hi _]]; [| lia].
        apply list_elem_of_fmap in Hi as (p & -> & Hp).
        rewrite Forall_forall in Hrange. specialize (Hrange p Hp). lia.
      * intros Hi. destruct (decide (i ∈ receivedSequences st)) as [Hin | Hnotin];
          [left; by apply Hseen |].
        destruct (decide (i = sequence back)) as [-> | Hne].
        -- left. apply list_elem_of_fmap. exists back. split; [done |].
           apply last_Some in Hlast as [l ->]. set_solver.
        -- right. split; [lia | done].
Qed.

Lemma clean_run_output_witness :
  ∃ t' out,
    fetchAndSaveData stable_sort ascii_dump srv_gap
    = (if ascii_dump (output_json out)
       then (trace (stream_phase srv_gap) ++ t' ++ [EvOpenFile; EvSave out], Ok DataSaved)
       else (trace (stream_phase srv_gap) ++ t' ++ [EvOpenFile], Throw))
    ∧ sequence <$> out = seqZ 1 5.
Proof.
  apply (clean_run_output stable_sort ascii_dump srv_gap (trace (stream_phase srv_gap))
           (locals_of (stream_phase srv_gap))
           (mkPacket ["A"; "B"; "C"; "D"]%byte Buy 10 20 5));
    [apply stable_sort_contract | reflexivity | reflexivity | |].
  - split.
    + apply (bool_decide_unpack _). by vm_compute.
    + apply (bool_decide_unpack _). by vm_compute.
  - intros m Hm _. cbn [sequence] in Hm.
    assert (m = 1 ∨ m = 2 ∨ m = 3 ∨ m = 4) as [-> | [-> | [-> | ->]]] by lia;
      reflexivity.
Defined.

(** ** Unanswered and mismatched recovery requests *)



(** X15.  The packet of a recovery response is appended whatever sequence
    number it carries: it is not compared with the one asked for. *)
Theorem reply_not_checked srv seq st p :
  cooperative (retry srv seq) = true →
  reply_packet (retry srv seq) = Some p →
  recover_one srv seq st
  = (attempt_events (retry srv seq) seq,
     Ok {| packets := packets st ++ [p]; receivedSequences := receivedSequences st |}).
Proof.
  intros Hcoop Hreply. by rewrite recover_one_cooperative, Hreply by done.
Qed.

Lemma reply_not_checked_witness :
  recover_one srv_low_byte 259 {| packets := []; receivedSequences := ∅ |}
  = (attempt_events (retry srv_low_byte 259) 259,
     Ok {| packets := [] ++ [mkPacket ["A"; "B"; "C"; "D"]%byte Sell 30 40 3];
           receivedSequences := ∅ |}).
Proof. apply (reply_not_checked srv_low_byte 259); reflexivity. Defined.
